(** * fireworks_app.py: a shallow embedding of [FireworksApp]

    The Python class drives a Tk canvas through timer callbacks.  The
    embedding keeps the structure of the source:

    - the Tk canvas is a finite map from item ids to ovals;
    - [root.after] requests are emitted as a list of (delay, callback)
      pairs, to be picked up by the Tk main loop;
    - Python exceptions are an outcome of a computation, and the state
      reached before the exception is kept;
    - the [random] and [math] modules and the arithmetic of Python floats
      are interfaces ([Random], [Libm], [Number]).  The instance of
      [Number] is IEEE binary64, what CPython and Tk compute with; the
      theorems stated for an arbitrary [Number] use no property of the
      arithmetic at all, so they hold of binary64 in particular. *)

From Stdlib Require Import Floats.
From Stdlib Require Import ZArith Lia.
From stdpp Require Import gmap strings list.

Set Default Proof Using "Type".

(** ** Arithmetic of canvas coordinates and velocities *)

Class Number (T : Type) := {
  of_int : Z → T;                (* a Python int used where Tk wants a float *)
  num_add : T → T → T;
  num_mul : T → T → T;
  tenth : T;                     (* the literal 0.1 *)
  num_leb : T → T → bool;        (* <= *)
}.

(** What the program uses of the [math] module. *)
Class Libm (T : Type) := {
  math_pi : T;
  math_cos : T → T;
  math_sin : T → T;
}.

(** The [random] module: the result of the n-th draw made by the
    program, as a function of the arguments of the call. *)
Class Random (T : Type) := {
  rnd_randint : nat → Z → Z → Z;
  rnd_uniform : nat → T → T → T;
  rnd_choice : nat → nat → nat;   (* index chosen in a sequence of that length *)
}.

(** IEEE 754 binary64.  [float_of_int] is exact for |z| <= 2^53, which
    covers every coordinate the program builds from an int on a screen,
    and for the powers of two below 2^63; any other int below 2^63 is
    rounded to the nearest binary64 number, as Tk does when it reads a
    coordinate. *)
Definition float_of_int (z : Z) : float :=
  match z with
  | Z0 => PrimFloat.zero
  | Zpos _ => PrimFloat.of_uint63 (Uint63.of_Z z)
  | Zneg p => PrimFloat.opp (PrimFloat.of_uint63 (Uint63.of_Z (Zpos p)))
  end.

#[export] Instance float_Number : Number float := {
  of_int := float_of_int;
  num_add := PrimFloat.add;
  num_mul := PrimFloat.mul;
  tenth := 0x1.999999999999ap-4%float;
  num_leb := PrimFloat.leb;
}.

(** ** Canvas items, callbacks and the application state *)

Definition handle := nat.

Record item (T : Type) := Oval {
  x1 : T; y1 : T; x2 : T; y2 : T;
  fill : string;
  outline : string;
}.
Arguments Oval {T}.
Arguments x1 {T}.
Arguments y1 {T}.
Arguments x2 {T}.
Arguments y2 {T}.
Arguments fill {T}.
Arguments outline {T}.

(** A particle is the tuple [(particle, dx, dy)] of the source. *)
Definition particle_t (T : Type) : Type := handle * T * T.

Inductive callback (T : Type) :=
| CbAnimateRocket (rocket : handle) (x y_start y_target : Z)
| CbAnimateExplosion (particles : list (particle_t T))
| CbStartFireworks.
Arguments CbAnimateRocket {T}.
Arguments CbAnimateExplosion {T}.
Arguments CbStartFireworks {T}.

Inductive exn := KeyError (key : string) | IndexError | ValueError.

Record App (T : Type) := MkApp {
  width : Z;                          (* self.width *)
  height : Z;                         (* self.height *)
  geometry : Z * Z;                   (* root.geometry("WxH") *)
  canvas_size : Z * Z;                (* width=, height= of the Canvas *)
  resolution_var : string;
  menu_options : list string;         (* entries of the OptionMenu *)
  canvas : gmap handle (item T);      (* items of self.canvas *)
  next_id : handle;                   (* Tk's item id counter *)
  draws : nat;                        (* draws made from [random] so far *)
  monitors : list (Z * Z);            (* screeninfo.get_monitors() *)
}.
Arguments MkApp {T}.
Arguments width {T}.
Arguments height {T}.
Arguments geometry {T}.
Arguments canvas_size {T}.
Arguments resolution_var {T}.
Arguments menu_options {T}.
Arguments canvas {T}.
Arguments next_id {T}.
Arguments draws {T}.
Arguments monitors {T}.

Definition set_size {T} (w h : Z) (a : App T) : App T :=
  MkApp w h (geometry a) (canvas_size a) (resolution_var a) (menu_options a)
        (canvas a) (next_id a) (draws a) (monitors a).

Definition set_geometry {T} (g : Z * Z) (a : App T) : App T :=
  MkApp (width a) (height a) g (canvas_size a) (resolution_var a)
        (menu_options a) (canvas a) (next_id a) (draws a) (monitors a).

Definition set_canvas {T} (c : gmap handle (item T)) (a : App T) : App T :=
  MkApp (width a) (height a) (geometry a) (canvas_size a) (resolution_var a)
        (menu_options a) c (next_id a) (draws a) (monitors a).

Definition set_next_id {T} (n : handle) (a : App T) : App T :=
  MkApp (width a) (height a) (geometry a) (canvas_size a) (resolution_var a)
        (menu_options a) (canvas a) n (draws a) (monitors a).

Definition set_draws {T} (n : nat) (a : App T) : App T :=
  MkApp (width a) (height a) (geometry a) (canvas_size a) (resolution_var a)
        (menu_options a) (canvas a) (next_id a) n (monitors a).

(** ** Computations: state, exceptions and timer requests *)

Inductive outcome (A : Type) := Ok (a : A) | Raise (e : exn).
Arguments Ok {A}.
Arguments Raise {A}.

Record result (T A : Type) := Result {
  value : outcome A;
  final : App T;                           (* the state left behind *)
  scheduled : list (Z * callback T);       (* root.after(ms, callback) *)
}.
Arguments Result {T A}.
Arguments value {T A}.
Arguments final {T A}.
Arguments scheduled {T A}.

Definition M (T A : Type) : Type := App T → result T A.

#[export] Instance M_ret {T} : MRet (M T) :=
  λ A a app, Result (Ok a) app [].

#[export] Instance M_bind {T} : MBind (M T) :=
  λ A B f m app,
    match m app with
    | Result (Ok a) app1 sched1 =>
        match f a app1 with
        | Result v app2 sched2 => Result v app2 (sched1 ++ sched2)
        end
    | Result (Raise e) app1 sched1 => Result (Raise e) app1 sched1
    end.

#[export] Instance M_throw {T} : MThrow exn (M T) :=
  λ A e app, Result (Raise e) app [].

Definition gets {T A} (f : App T → A) : M T A :=
  λ app, Result (Ok (f app)) app [].

Definition modify {T} (f : App T → App T) : M T () :=
  λ app, Result (Ok ()) (f app) [].

(** [seq[i]] on a Python list. *)
Definition index {T A} (l : list A) (i : nat) : M T A :=
  match l !! i with
  | Some a => mret a
  | None => mthrow IndexError
  end.

(** [for a in l: acc = body(a, acc)] *)
Fixpoint for_each {T A S} (body : A → S → M T S) (l : list A) (acc : S) : M T S :=
  match l with
  | [] => mret acc
  | a :: l' => acc' ← body a acc; for_each body l' acc'
  end.

(** Truth value of a Python list: [if pos:]. *)
Definition truthy {A} (l : list A) : bool :=
  match l with [] => false | _ :: _ => true end.

(** ** The external collaborators: Tk canvas, timers, random, screeninfo *)

Section Program.
Context {T : Type} `{!Number T, !Libm T, !Random T}.

Local Open Scope Z_scope.

Definition translate (dx dy : T) (it : item T) : item T :=
  Oval (num_add (x1 it) dx) (num_add (y1 it) dy)
       (num_add (x2 it) dx) (num_add (y2 it) dy)
       (fill it) (outline it).

(** [canvas.create_oval(a, b, c, d, fill=.., outline=..)]: ids are
    handed out in increasing order and never reused. *)
Definition create_oval (a b c d : T) (fill_ outline_ : string) : M T handle :=
  λ app,
    let id := next_id app in
    Result (Ok id)
      (set_next_id (S id)
         (set_canvas (<[id := Oval a b c d fill_ outline_]> (canvas app)) app))
      [].

(** [canvas.move(h, dx, dy)]: nothing happens when [h] names no item. *)
Definition canvas_move (h : handle) (dx dy : T) : M T () :=
  modify (λ app, set_canvas (alter (translate dx dy) h (canvas app)) app).

(** [canvas.delete(h)] *)
Definition canvas_delete (h : handle) : M T () :=
  modify (λ app, set_canvas (delete h (canvas app)) app).

(** [canvas.coords(h)]: the bounding box, or the empty list when the
    item does not exist. *)
Definition coords_of (c : gmap handle (item T)) (h : handle) : list T :=
  match c !! h with
  | Some it => [x1 it; y1 it; x2 it; y2 it]
  | None => []
  end.

Definition canvas_coords (h : handle) : M T (list T) :=
  gets (λ app, coords_of (canvas app) h).

(** [root.after(ms, callback, *args)] *)
Definition after (ms : Z) (cb : callback T) : M T () :=
  λ app, Result (Ok ()) app [(ms, cb)].

(** [root.geometry(f"{w}x{h}")] *)
Definition root_geometry (w h : Z) : M T () :=
  modify (set_geometry (w, h)).

(** [random.randint(a, b)]: ValueError on an empty range. *)
Definition randint (a b : Z) : M T Z :=
  λ app,
    if b <? a then Result (Raise ValueError) app []
    else Result (Ok (rnd_randint (draws app) a b))
                (set_draws (S (draws app)) app) [].

(** [random.uniform(a, b)] *)
Definition uniform (a b : T) : M T T :=
  λ app,
    Result (Ok (rnd_uniform (draws app) a b))
           (set_draws (S (draws app)) app) [].

(** [random.choice(seq)]: IndexError on an empty sequence. *)
Definition choice {A} (l : list A) : M T A :=
  λ app,
    match l !! rnd_choice (draws app) (length l) with
    | Some a => Result (Ok a) (set_draws (S (draws app)) app) []
    | None => Result (Raise IndexError) app []
    end.

(** [screeninfo.get_monitors()[0]] *)
Definition first_monitor : M T (Z * Z) :=
  ms ← gets monitors; index ms 0%nat.

(** ** The resolution table *)

Definition resolution_table : list (string * (Z * Z)) :=
  [ ("360P", (800, 600));
    ("HD", (1280, 720));
    ("FULLHD", (1920, 1080));
    ("2K", (2560, 1440));
    ("4K", (3840, 2160)) ]%string.

Definition resolutions : gmap string (Z * Z) := list_to_map resolution_table.

(** [self.resolutions[key]] *)
Definition resolutions_item (key : string) : M T (Z * Z) :=
  match resolutions !! key with
  | Some wh => mret wh
  | None => mthrow (KeyError key)
  end.

(** ** [__init__] (lines 22-65)

    The state before the constructor runs only holds the environment
    (the monitors, the random draws made so far); the Tk widgets are
    created by the constructor. *)
Definition blank (mons : list (Z * Z)) (drawn : nat) : App T :=
  MkApp 0 0 (0, 0) (0, 0) "" [] ∅ 1%nat drawn mons.

Definition init (resolution : string) : M T () :=
  '(screen_width, screen_height) ← first_monitor;
  hd_ ← resolutions_item "HD";
  let '(w, h) := default hd_ (resolutions !! resolution) in
  modify (set_size w h);;
  w ← gets width;
  modify (λ app, set_size (Z.min w (screen_width - 50)) (height app) app);;
  h ← gets height;
  modify (λ app, set_size (width app) (Z.min h (screen_height - 50)) app);;
  w ← gets width; h ← gets height;
  root_geometry w h;;
  modify (λ app,
    MkApp (width app) (height app) (geometry app) (w, h) resolution
          (resolution_table.*1) (canvas app) (next_id app) (draws app)
          (monitors app)).

(** ** [change_resolution] (lines 67-74) *)
Definition change_resolution (selected_resolution : string) : M T () :=
  '(w, h) ← resolutions_item selected_resolution;
  modify (set_size w h);;
  m ← first_monitor;
  w ← gets width;
  modify (λ app, set_size (Z.min w (m.1 - 50)) (height app) app);;
  m ← first_monitor;
  h ← gets height;
  modify (λ app, set_size (width app) (Z.min h (m.2 - 50)) app);;
  w ← gets width; h ← gets height;
  root_geometry w h.

(** ** [animate_explosion] (lines 136-160) *)

(** [lo <= v <= hi] with int bounds and a float in the middle. *)
Definition between (lo : Z) (v : T) (hi : Z) : bool :=
  num_leb (of_int lo) v && num_leb v (of_int hi).

(** [0 <= pos[0] <= self.width and 0 <= pos[1] <= self.height] *)
Definition on_screen (pos : list T) : M T bool :=
  px ← index pos 0%nat;
  w ← gets width;
  if between 0 px w then
    py ← index pos 1%nat;
    h ← gets height;
    mret (between 0 py h)
  else mret false.

(** The body of the [for particle, dx, dy in particles] loop. *)
Definition advance_particle (p : particle_t T)
    (remaining_particles : list (particle_t T)) : M T (list (particle_t T)) :=
  let '(particle, dx, dy) := p in
  pos ← canvas_coords particle;
  if truthy pos then
    canvas_move particle (num_mul dx tenth) (num_mul dy tenth);;
    pos ← canvas_coords particle;
    inside ← on_screen pos;
    if negb inside then
      canvas_delete particle;; mret remaining_particles
    else mret (remaining_particles ++ [(particle, dx, dy)])
  else
    canvas_delete particle;; mret remaining_particles.

(** Lines 143-156: the loop, returning [remaining_particles]. *)
Definition advance_particles (particles : list (particle_t T))
    : M T (list (particle_t T)) :=
  for_each advance_particle particles [].

Definition animate_explosion (particles : list (particle_t T)) : M T () :=
  remaining_particles ← advance_particles particles;
  if truthy remaining_particles then
    after 50 (CbAnimateExplosion remaining_particles)
  else mret ().

(** ** [explode] (lines 108-134) *)

Definition colors : list string :=
  ["red"; "orange"; "yellow"; "green"; "blue"; "purple"; "white"]%string.

(** The body of the [for _ in range(30)] loop. *)
Definition spawn_particle (x y_target : Z) (_ : nat)
    (particles : list (particle_t T)) : M T (list (particle_t T)) :=
  angle ← uniform (of_int 0) (num_mul (of_int 2) math_pi);
  distance ← uniform (of_int 20) (of_int 100);
  let dx := num_mul distance (math_cos angle) in
  let dy := num_mul distance (math_sin angle) in
  color ← choice colors;
  particle ← create_oval (of_int x) (of_int y_target)
                         (of_int (x + 5)) (of_int (y_target + 5)) color color;
  mret (particles ++ [(particle, dx, dy)]).

(** Lines 119-131: the loop, returning [particles]. *)
Definition spawn_particles (x y_target : Z) : M T (list (particle_t T)) :=
  for_each (spawn_particle x y_target) (seq 0 30) [].

Definition explode (rocket : handle) (x y_target : Z) : M T () :=
  canvas_delete rocket;;
  particles ← spawn_particles x y_target;
  animate_explosion particles.

(** ** [animate_rocket] (lines 92-106) *)
Definition animate_rocket (rocket : handle) (x y_start y_target : Z) : M T () :=
  if y_start >? y_target then
    canvas_move rocket (of_int 0) (of_int (-10));;
    after 30 (CbAnimateRocket rocket x (y_start - 10) y_target)
  else explode rocket x y_target.

(** ** [create_rocket] (lines 76-90) *)
Definition create_rocket : M T () :=
  w ← gets width;
  x ← randint 100 (w - 100);
  y_start ← gets height;
  y_target ← randint 100 300;
  rocket ← create_oval (of_int (x - 2)) (of_int (y_start - 10))
                       (of_int (x + 2)) (of_int (y_start + 10))
                       "white" "white";
  animate_rocket rocket x y_start y_target.

(** ** [start_fireworks] (lines 162-167) *)
Definition start_fireworks : M T () :=
  create_rocket;;
  after 1000 CbStartFireworks.

(** ** The Tk main loop runs one due callback at a time *)
Definition fire (cb : callback T) : M T () :=
  match cb with
  | CbAnimateRocket rocket x y_start y_target =>
      animate_rocket rocket x y_start y_target
  | CbAnimateExplosion particles => animate_explosion particles
  | CbStartFireworks => start_fireworks
  end.

(** The callback chain of one rocket or one explosion: every advance
    step of such an entity schedules at most one callback, its own next
    step.  [follow n cb app] runs [n] advance steps starting with [cb]
    and returns the callback left pending, or [None] when the chain has
    stopped (nothing scheduled, or an exception) before that. *)
Definition next_of (r : result T ()) : option (callback T * App T) :=
  match value r, scheduled r with
  | Ok _, [(_, cb)] => Some (cb, final r)
  | _, _ => None
  end.

Fixpoint follow (n : nat) (cb : callback T) (app : App T)
    : option (callback T * App T) :=
  match n with
  | O => Some (cb, app)
  | S k =>
      match next_of (fire cb app) with
      | Some (cb', app') => follow k cb' app'
      | None => None
      end
  end.

End Program.

(** The advance steps of one explosion, which only need the arithmetic:
    [explosion_frames n ps app] is the particle list pending and the state
    after [n] runs of [animate_explosion], or [None] when the loop has
    stopped before that. *)
Fixpoint explosion_frames {T} `{!Number T} (n : nat)
    (particles : list (particle_t T)) (app : App T)
    : option (list (particle_t T) * App T) :=
  match n with
  | O => Some (particles, app)
  | S k =>
      let r := animate_explosion particles app in
      match value r, scheduled r with
      | Ok _, [(_, CbAnimateExplosion remaining)] =>
          explosion_frames k remaining (final r)
      | _, _ => None
      end
  end.

(** The same loop run to its end: [explosion_end fuel ps app] is the
    number of the advance step that scheduled nothing, and the state it
    left, when there is such a step among the first [S fuel]; [None] when
    all of them rescheduled the loop. *)
Fixpoint explosion_end {T} `{!Number T} (fuel : nat)
    (particles : list (particle_t T)) (app : App T) : option (nat * App T) :=
  let r := animate_explosion particles app in
  match value r, scheduled r with
  | Ok _, [] => Some (1%nat, final r)
  | Ok _, [(_, CbAnimateExplosion remaining)] =>
      match fuel with
      | O => None
      | S k =>
          match explosion_end k remaining (final r) with
          | Some (n, a) => Some (S n, a)
          | None => None
          end
      end
  | _, _ => None
  end.

(** ** Auxiliary definitions

    These are not part of the program.  They describe what one advance
    step computes ([stays], [canvas_after], [survivors]), what [explode]
    draws ([drawn_dx], [drawn_dy]), the states reached by a rocket
    ([risen]) and by the constructor ([started]), and the contracts of the
    [random] module.  The lemmas of the second part relate them to the
    code. *)

Section Devices.
Context {T : Type} `{!Number T, !Libm T, !Random T}.

Local Open Scope Z_scope.

(** Where the top-left corner of an item is after the move of a step. *)
Definition moved_x (it : item T) (dx : T) : T := num_add (x1 it) (num_mul dx tenth).
Definition moved_y (it : item T) (dy : T) : T := num_add (y1 it) (num_mul dy tenth).

Definition stays (w h : Z) (c : gmap handle (item T)) (p : particle_t T) : bool :=
  match c !! p.1.1 with
  | Some it => between 0 (moved_x it p.1.2) w && between 0 (moved_y it p.2) h
  | None => false
  end.

Definition canvas_after (w h : Z) (c : gmap handle (item T)) (p : particle_t T)
    : gmap handle (item T) :=
  if stays w h c p
  then alter (translate (num_mul p.1.2 tenth) (num_mul p.2 tenth)) p.1.1 c
  else delete p.1.1 c.

Fixpoint survivors (w h : Z) (c : gmap handle (item T)) (ps : list (particle_t T))
    : list (particle_t T) :=
  match ps with
  | [] => []
  | p :: ps' =>
      (if stays w h c p then [p] else []) ++ survivors w h (canvas_after w h c p) ps'
  end.

Definition canvas_after_all (w h : Z) (c : gmap handle (item T))
    (ps : list (particle_t T)) : gmap handle (item T) :=
  foldl (canvas_after w h) c ps.

(** The contract of [random.choice]: an index inside the sequence. *)
Definition fair_choice : Prop :=
  ∀ n len, (0 < len)%nat → (rnd_choice n len < len)%nat.

(** The contract of [random.uniform] at the call [uniform(20, 100)] made
    by [explode]: the distance drawn is in the range, as compared by the
    arithmetic at hand. *)
Definition fair_uniform : Prop :=
  ∀ n,
    num_leb (of_int 20) (rnd_uniform n (of_int 20) (of_int 100)) = true ∧
    num_leb (rnd_uniform n (of_int 20) (of_int 100)) (of_int 100) = true.

(** The velocity computed from the draws number [d] (the angle) and
    [d + 1] (the distance). *)
Definition drawn_distance (d : nat) : T :=
  rnd_uniform (S d) (of_int 20) (of_int 100).

Definition drawn_angle (d : nat) : T :=
  rnd_uniform d (of_int 0) (num_mul (of_int 2) math_pi).

Definition drawn_dx (d : nat) : T :=
  num_mul (drawn_distance d) (math_cos (drawn_angle d)).

Definition drawn_dy (d : nat) : T :=
  num_mul (drawn_distance d) (math_sin (drawn_angle d)).

Definition spawned (x y_target : Z) (color : string) (app : App T) : App T :=
  set_next_id (S (next_id app))
    (set_canvas
       (<[next_id app := Oval (of_int x) (of_int y_target) (of_int (x + 5))
                              (of_int (y_target + 5)) color color]> (canvas app))
       (set_draws (S (S (S (draws app)))) app)).

(** The state after [n] rising steps of a rocket: its visual has been
    moved [n] times by (0, -10). *)
Fixpoint risen (rocket : handle) (n : nat) (app : App T) : App T :=
  match n with
  | O => app
  | S k =>
      risen rocket k
        (set_canvas (alter (translate (of_int 0) (of_int (-10))) rocket (canvas app)) app)
  end.

(** The window made by the constructor on a screen of [sw] x [sh] when the
    table (or the HD fallback) gives [wh]. *)
Definition started (resolution : string) (wh : Z * Z) (sw sh : Z)
    (rest : list (Z * Z)) (drawn : nat) : App T :=
  let w := Z.min wh.1 (sw - 50) in
  let h := Z.min wh.2 (sh - 50) in
  MkApp w h (w, h) (w, h) resolution (resolution_table.*1) ∅ 1%nat drawn
        ((sw, sh) :: rest).

End Devices.

(** ** Scenarios

    All in binary64.  One particle of velocity (50, 0) whose visual is the
    oval (400, 150, 405, 155) on a canvas of 800 x 600. *)

Definition demo_app : App float :=
  MkApp 800%Z 600%Z (800, 600)%Z (800, 600)%Z "360P" (resolution_table.*1)
        {[ 1%nat := Oval 400%float 150%float 405%float 155%float "red" "red" ]}
        2%nat 0%nat [(1920, 1080)%Z].

Definition demo_particle : particle_t float := (1%nat, 50%float, 0%float).

(** The state of [demo_app] when the particle's visual is at [x]. *)
Definition demo_app_at (x x' : float) : App float :=
  set_canvas {[ 1%nat := Oval x 150%float x' 155%float "red" "red" ]} demo_app.

(** One particle of velocity (1, 0) whose visual starts at x = 0. *)
Definition slow_app : App float :=
  MkApp 800%Z 600%Z (800, 600)%Z (800, 600)%Z "360P" (resolution_table.*1)
        {[ 1%nat := Oval 0%float 150%float 5%float 155%float "red" "red" ]}
        2%nat 0%nat [(1920, 1080)%Z].

Definition slow_particle : particle_t float := (1%nat, 1%float, 0%float).

(** The state of [slow_app] when the particle's visual is at [x]. *)
Definition slow_app_at (x x' : float) : App float :=
  set_canvas {[ 1%nat := Oval x 150%float x' 155%float "red" "red" ]} slow_app.

(** The [math] module at the one angle the scenarios draw: [math.pi], and
    the binary64 numbers that CPython's [math.cos] and [math.sin] return
    for 2.5, which are -0.8011436155469337 and 0.5984721441039565.  No
    other angle is tabulated. *)
Definition sample_libm : Libm float :=
  {| math_pi := 0x1.921fb54442d18p+1%float;
     math_cos := λ a,
       if PrimFloat.eqb a 2.5%float then (-0x1.9a2f7ef858b7dp-1)%float else nan;
     math_sin := λ a,
       if PrimFloat.eqb a 2.5%float then 0x1.326af0dcfcab1p-1%float else nan |}.

(** A random source whose answers do not depend on the draw: [randint]
    gives the lower bound, [choice] the first element, [uniform(0, b)]
    the angle 2.5 when b >= 2.5, and [uniform(a, b)] its lower bound
    otherwise.  For the two calls of [explode] these are values that
    [random.uniform], which computes a + (b - a) * random(), can return:
    2 pi * (3583850712014162 / 2^53) is 2.5 in binary64, and
    20 + 80 * 0.0 is 20. *)
Definition sample_random : Random float :=
  {| rnd_randint := λ _ a _, a;
     rnd_uniform := λ _ a b,
       if PrimFloat.eqb a 0 && PrimFloat.leb 2.5%float b then 2.5%float else a;
     rnd_choice := λ _ _, 0%nat |}.

(** The velocity [explode] computes from these draws:
    20 * cos(2.5) and 20 * sin(2.5), rounded. *)
Definition sample_dx : float := (-0x1.005daf5b3772ep+4)%float.
Definition sample_dy : float := 0x1.7f05ad143bd5dp+3%float.

(** A rocket as create_rocket builds it at x = 400 on a window 600 high. *)
Definition rocket_app : App float :=
  MkApp 800%Z 600%Z (800, 600)%Z (800, 600)%Z "360P" (resolution_table.*1)
        {[ 1%nat := Oval 398%float 590%float 402%float 610%float "white" "white" ]}
        2%nat 0%nat [(1920, 1080)%Z].

(** A canvas of 2^60 x 2^60 on which a rocket has arrived at
    (2^59, 2^59). *)
Definition huge_app : App float :=
  MkApp (2 ^ 60)%Z (2 ^ 60)%Z (2 ^ 60, 2 ^ 60)%Z (2 ^ 60, 2 ^ 60)%Z "4K"
        (resolution_table.*1)
        {[ 1%nat := Oval 0x1p+59%float 0x1p+59%float 0x1p+59%float 0x1p+59%float
                         "white" "white" ]}
        2%nat 0%nat [(1920, 1080)%Z].

(** ** Definitions for the properties beyond the claims *)

Section MoreDevices.
Context {T : Type} `{!Number T, !Libm T, !Random T}.

Local Open Scope Z_scope.

(** The contract of [random.randint]. *)
Definition fair_randint : Prop :=
  ∀ n a b, a ≤ b → a ≤ rnd_randint n a b ≤ b.

(** Every item on the canvas has an id that Tk has already handed out. *)
Definition ids_below_next (app : App T) : Prop :=
  ∀ k it, canvas app !! k = Some it → (k < next_id app)%nat.

(** The number of steps a rocket rises: the ceiling of
    (y_start - y_target) / 10, and 0 when it starts at or above its target
    height. *)
Definition rising_steps (y_start y_target : Z) : nat :=
  Z.to_nat ((y_start - y_target + 9) / 10).

(** The coordinate [v] after [n] moves by [d * 0.1], each move being one
    addition in the arithmetic at hand. *)
Definition moved_times (n : nat) (d v : T) : T :=
  Nat.iter n (λ u, num_add u (num_mul d tenth)) v.

(** A corner that starts at (x, y) and is moved by (dx * 0.1, dy * 0.1)
    again and again fails the test 0 <= x <= w and 0 <= y <= h after one
    of its first [n] moves. *)
Definition leaves_by (n : nat) (w h : Z) (x y dx dy : T) : Prop :=
  ∃ j : nat, (1 ≤ j ≤ n)%nat ∧
    between 0 (moved_times j dx x) w && between 0 (moved_times j dy y) h = false.

End MoreDevices.

(** Two more states for the scenarios: one on a system that reports no
    monitor, one with a window only 150 wide. *)
Definition headless_app : App float :=
  MkApp 800%Z 600%Z (800, 600)%Z (800, 600)%Z "360P" (resolution_table.*1)
        ∅ 1%nat 0%nat [].

Definition narrow_app : App float :=
  MkApp 150%Z 600%Z (150, 600)%Z (150, 600)%Z "360P" (resolution_table.*1)
        ∅ 1%nat 0%nat [(200, 1080)%Z].

(** * Lemmas and theorems *)

(** ** What one advance step does, as functions of the canvas

    [advance_particle_run] and [advance_particles_run] show that the loop
    of the source computes [survivors] and [canvas_after_all]. *)

Section Advance.
Context {T : Type} `{!Number T}.

Local Open Scope Z_scope.

Lemma set_canvas_twice (c c' : gmap handle (item T)) (app : App T) :
  set_canvas c (set_canvas c' app) = set_canvas c app.
Proof. by destruct app. Qed.

Lemma set_canvas_same (app : App T) : set_canvas (canvas app) app = app.
Proof. by destruct app. Qed.

Lemma advance_particle_run (p : particle_t T) (rem : list (particle_t T)) (app : App T) :
  advance_particle p rem app =
    Result (Ok (rem ++ (if stays (width app) (height app) (canvas app) p then [p] else [])))
           (set_canvas (canvas_after (width app) (height app) (canvas app) p) app)
           [].
Proof.
  destruct p as [[h dx] dy].
  unfold advance_particle, canvas_after, stays, moved_x, moved_y. simpl.
  unfold on_screen, index, canvas_move, canvas_delete, canvas_coords, coords_of,
    modify, gets, mbind, M_bind, mret, M_ret. simpl.
  destruct (canvas app !! h) as [it|] eqn:Hit; simpl.
  - rewrite lookup_alter_eq, Hit. simpl.
    destruct (between 0 (num_add (x1 it) (num_mul dx tenth)) (width app)); simpl.
    + destruct (between 0 (num_add (y1 it) (num_mul dy tenth)) (height app)); simpl.
      * done.
      * rewrite set_canvas_twice, delete_alter_eq, app_nil_r. done.
    + rewrite set_canvas_twice, delete_alter_eq, app_nil_r. done.
  - by rewrite app_nil_r.
Qed.

Lemma for_each_advance_run (ps rem : list (particle_t T)) (app : App T) :
  for_each advance_particle ps rem app =
    Result (Ok (rem ++ survivors (width app) (height app) (canvas app) ps))
           (set_canvas (canvas_after_all (width app) (height app) (canvas app) ps) app)
           [].
Proof.
  revert rem app. induction ps as [|p ps IH]; intros rem app; simpl.
  - by rewrite app_nil_r, set_canvas_same.
  - unfold mbind, M_bind. rewrite advance_particle_run. simpl.
    rewrite IH. simpl. rewrite set_canvas_twice, <- app_assoc. done.
Qed.

Lemma advance_particles_run (ps : list (particle_t T)) (app : App T) :
  advance_particles ps app =
    Result (Ok (survivors (width app) (height app) (canvas app) ps))
           (set_canvas (canvas_after_all (width app) (height app) (canvas app) ps) app)
           [].
Proof. unfold advance_particles. by rewrite for_each_advance_run. Qed.

Lemma animate_explosion_run (ps : list (particle_t T)) (app : App T) :
  animate_explosion ps app =
    let rem := survivors (width app) (height app) (canvas app) ps in
    Result (Ok ())
           (set_canvas (canvas_after_all (width app) (height app) (canvas app) ps) app)
           (if truthy rem then [(50, CbAnimateExplosion rem)] else []).
Proof.
  unfold animate_explosion, mbind, M_bind. rewrite advance_particles_run. simpl.
  by destruct (survivors _ _ _ _).
Qed.

Lemma elem_of_handles (p : particle_t T) (ps : list (particle_t T)) :
  p ∈ ps → p.1.1 ∈ ps.*1.*1.
Proof.
  intros Hp. apply list_elem_of_fmap. exists p.1. split; [done|].
  apply list_elem_of_fmap. by exists p.
Qed.

(** *** The canvas after a step *)

Lemma canvas_after_lookup (w h : Z) (c : gmap handle (item T)) (p : particle_t T) (k : handle) :
  canvas_after w h c p !! k =
    if decide (k = p.1.1)
    then (if stays w h c p
          then translate (num_mul p.1.2 tenth) (num_mul p.2 tenth) <$> c !! k
          else None)
    else c !! k.
Proof.
  unfold canvas_after. case_decide as Hk.
  - subst k. destruct (stays w h c p).
    + by rewrite lookup_alter_eq.
    + by rewrite lookup_delete_eq.
  - destruct (stays w h c p).
    + by rewrite lookup_alter_ne.
    + by rewrite lookup_delete_ne.
Qed.

Lemma canvas_after_lookup_ne (w h : Z) (c : gmap handle (item T)) (p : particle_t T) (k : handle) :
  k ≠ p.1.1 → canvas_after w h c p !! k = c !! k.
Proof. intros Hk. rewrite canvas_after_lookup. by case_decide. Qed.

Lemma stays_agree (w h : Z) (c c' : gmap handle (item T)) (p : particle_t T) :
  c !! p.1.1 = c' !! p.1.1 → stays w h c p = stays w h c' p.
Proof. unfold stays. by intros ->. Qed.

Lemma canvas_after_agree (w h : Z) (c c' : gmap handle (item T)) (p : particle_t T) (k : handle) :
  c !! p.1.1 = c' !! p.1.1 → c !! k = c' !! k →
  canvas_after w h c p !! k = canvas_after w h c' p !! k.
Proof.
  intros Hp Hk. rewrite !canvas_after_lookup, (stays_agree w h c c' p Hp), Hk. done.
Qed.

Lemma canvas_after_all_lookup_notin (w h : Z) (ps : list (particle_t T))
    (c : gmap handle (item T)) (k : handle) :
  k ∉ ps.*1.*1 → canvas_after_all w h c ps !! k = c !! k.
Proof.
  revert c. induction ps as [|p ps IH]; intros c Hk; [done|].
  simpl in *. apply not_elem_of_cons in Hk as [Hne Hk].
  unfold canvas_after_all in *. simpl. rewrite IH by done.
  by apply canvas_after_lookup_ne.
Qed.

Lemma canvas_after_all_lookup_in (w h : Z) (ps : list (particle_t T))
    (c : gmap handle (item T)) (p : particle_t T) :
  NoDup (ps.*1.*1) → p ∈ ps →
  canvas_after_all w h c ps !! p.1.1 =
    if stays w h c p
    then translate (num_mul p.1.2 tenth) (num_mul p.2 tenth) <$> c !! p.1.1
    else None.
Proof.
  revert c. induction ps as [|q ps IH]; intros c Hnd Hin.
  - by apply elem_of_nil in Hin.
  - simpl in Hnd. apply NoDup_cons in Hnd as [Hq Hnd].
    unfold canvas_after_all in *. simpl.
    apply elem_of_cons in Hin as [->|Hin].
    + fold (canvas_after_all w h (canvas_after w h c q) ps).
      rewrite canvas_after_all_lookup_notin by done.
      rewrite canvas_after_lookup. by case_decide.
    + assert (p.1.1 ≠ q.1.1) as Hne.
      { intros Heq. apply Hq. rewrite <- Heq.
        apply list_elem_of_fmap. exists p.1. split; [done|].
        apply list_elem_of_fmap. by exists p. }
      rewrite IH by done.
      rewrite (stays_agree w h (canvas_after w h c q) c p)
        by (by apply canvas_after_lookup_ne).
      by rewrite canvas_after_lookup_ne.
Qed.

(** Nothing is created and no colour changes: whatever is on the canvas
    after the step was there before, with the same colours. *)
Lemma canvas_after_all_origin (w h : Z) (ps : list (particle_t T))
    (c : gmap handle (item T)) (k : handle) (it' : item T) :
  canvas_after_all w h c ps !! k = Some it' →
  ∃ it, c !! k = Some it ∧ fill it' = fill it ∧ outline it' = outline it.
Proof.
  revert c it'. induction ps as [|p ps IH]; intros c it' Hk.
  - by exists it'.
  - unfold canvas_after_all in *. simpl in Hk.
    apply IH in Hk as (it1 & Hk & Hf & Ho).
    rewrite canvas_after_lookup in Hk. case_decide.
    + destruct (stays w h c p); [|done].
      destruct (c !! k) as [it|]; [|done]. simpl in Hk.
      injection Hk as <-. by exists it.
    + by exists it1.
Qed.

(** *** The particles kept by a step *)

Lemma survivors_sublist (w h : Z) (ps : list (particle_t T)) (c : gmap handle (item T)) :
  survivors w h c ps `sublist_of` ps.
Proof.
  revert c. induction ps as [|p ps IH]; intros c; simpl; [done|].
  destruct (stays w h c p); simpl.
  - by apply sublist_skip.
  - by apply sublist_cons.
Qed.

Lemma survivors_agree (w h : Z) (ps : list (particle_t T)) (c c' : gmap handle (item T)) :
  (∀ q, q ∈ ps → c !! q.1.1 = c' !! q.1.1) →
  survivors w h c ps = survivors w h c' ps.
Proof.
  revert c c'. induction ps as [|p ps IH]; intros c c' Hag; simpl; [done|].
  assert (c !! p.1.1 = c' !! p.1.1) as Hp by (apply Hag; left).
  rewrite (stays_agree w h c c' p Hp). f_equal.
  apply IH. intros q Hq. apply canvas_after_agree; [done|].
  apply Hag. by right.
Qed.

Lemma survivors_filter (w h : Z) (ps : list (particle_t T)) (c : gmap handle (item T)) :
  NoDup (ps.*1.*1) →
  survivors w h c ps = filter (λ p, stays w h c p) ps.
Proof.
  revert c. induction ps as [|p ps IH]; intros c Hnd; [done|].
  simpl in Hnd. apply NoDup_cons in Hnd as [Hp Hnd]. simpl.
  rewrite filter_cons.
  rewrite (survivors_agree w h ps (canvas_after w h c p) c).
  - rewrite IH by done. by destruct (stays w h c p); case_decide.
  - intros q Hq. apply canvas_after_lookup_ne. intros Heq. apply Hp.
    rewrite <- Heq. apply list_elem_of_fmap. exists q.1. split; [done|].
    apply list_elem_of_fmap. by exists q.
Qed.

Lemma elem_of_survivors (w h : Z) (ps : list (particle_t T)) (c : gmap handle (item T))
    (p : particle_t T) :
  NoDup (ps.*1.*1) →
  p ∈ survivors w h c ps ↔ p ∈ ps ∧ stays w h c p = true.
Proof.
  intros Hnd. rewrite survivors_filter by done.
  rewrite list_elem_of_filter. rewrite Is_true_true. tauto.
Qed.

Lemma survivors_NoDup (w h : Z) (ps : list (particle_t T)) (c : gmap handle (item T)) :
  NoDup (ps.*1.*1) → NoDup ((survivors w h c ps).*1.*1).
Proof.
  intros Hnd. eapply sublist_NoDup; [exact Hnd|].
  do 2 apply fmap_sublist. apply survivors_sublist.
Qed.

End Advance.

(** ** One advance step of an explosion *)

Section Explosion.
Context {T : Type} `{!Number T}.

Local Open Scope Z_scope.

Lemma explosion_frames_step (n : nat) (ps : list (particle_t T)) (app : App T) :
  explosion_frames (S n) ps app =
    let rem := survivors (width app) (height app) (canvas app) ps in
    if truthy rem
    then explosion_frames n rem
           (set_canvas (canvas_after_all (width app) (height app) (canvas app) ps) app)
    else None.
Proof.
  simpl. rewrite animate_explosion_run. simpl.
  by destruct (survivors _ _ _ _).
Qed.

Lemma explosion_frames_add (n m : nat) (ps : list (particle_t T)) (app : App T) :
  explosion_frames (n + m) ps app =
    match explosion_frames n ps app with
    | Some (ps', app') => explosion_frames m ps' app'
    | None => None
    end.
Proof.
  revert ps app. induction n as [|n IH]; intros ps app; [done|].
  change (S n + m)%nat with (S (n + m)). rewrite !explosion_frames_step. simpl.
  destruct (truthy _); [apply IH|done].
Qed.

Lemma explosion_frames_sublist (n : nat) (ps ps' : list (particle_t T)) (app app' : App T) :
  explosion_frames n ps app = Some (ps', app') → ps' `sublist_of` ps.
Proof.
  revert ps app. induction n as [|n IH]; intros ps app Hrun.
  - by injection Hrun as <- <-.
  - rewrite explosion_frames_step in Hrun. simpl in Hrun.
    destruct (truthy _); [|done].
    etrans; [by eapply IH|]. apply survivors_sublist.
Qed.

(** C5. An advance step never raises; it schedules exactly one callback,
    the next advance of the particles that remain, 50 ms later, when some
    particle remains, and schedules nothing when none remains, in which
    case the loop of this explosion has no further step at all. *)
Theorem animate_explosion_schedules_iff_remaining
    (particles : list (particle_t T)) (app : App T) :
  ∃ remaining,
    value (advance_particles particles app) = Ok remaining ∧
    value (animate_explosion particles app) = Ok () ∧
    final (animate_explosion particles app) = final (advance_particles particles app) ∧
    (scheduled (animate_explosion particles app) ≠ [] ↔ remaining ≠ []) ∧
    (remaining ≠ [] →
       scheduled (animate_explosion particles app) =
         [(50, CbAnimateExplosion remaining)]) ∧
    (remaining = [] →
       scheduled (animate_explosion particles app) = [] ∧
       ∀ n, explosion_frames (S n) particles app = None).
Proof.
  exists (survivors (width app) (height app) (canvas app) particles).
  rewrite advance_particles_run.
  split; [done|].
  assert (∀ n, explosion_frames (S n) particles app =
    if truthy (survivors (width app) (height app) (canvas app) particles)
    then explosion_frames n (survivors (width app) (height app) (canvas app) particles)
           (set_canvas (canvas_after_all (width app) (height app) (canvas app) particles) app)
    else None) as Hstep by (intros n; apply explosion_frames_step).
  rewrite animate_explosion_run. simpl.
  destruct (survivors _ _ _ _) as [|p rem]; simpl in *.
  - repeat split; done.
  - repeat split; done.
Qed.

(** C8. From an advance step to any later one of the same explosion the
    particle list only loses elements (the later list is a sublist of the
    earlier one, so every kept triple (particle, dx, dy) is an unchanged
    triple of the earlier list), and every item on the canvas afterwards
    was there before with the same fill and outline colours. *)
Theorem particles_only_leave (n : nat) (particles particles' : list (particle_t T))
    (app app' : App T) :
  explosion_frames n particles app = Some (particles', app') →
  particles' `sublist_of` particles ∧
  (∀ p, p ∈ particles' → p ∈ particles) ∧
  (∀ k it', canvas app' !! k = Some it' →
     ∃ it, canvas app !! k = Some it ∧
           fill it' = fill it ∧ outline it' = outline it).
Proof.
  intros Hrun.
  pose proof (explosion_frames_sublist n particles particles' app app' Hrun) as Hsub.
  split; [exact Hsub|]. split.
  { intros p Hp. by eapply elem_of_sublist. }
  revert particles app Hrun Hsub. induction n as [|n IH]; intros ps app Hrun _.
  - injection Hrun as <- <-. eauto.
  - rewrite explosion_frames_step in Hrun. simpl in Hrun.
    destruct (truthy _); [|done].
    intros k it' Hk.
    destruct (IH _ _ Hrun (explosion_frames_sublist _ _ _ _ _ Hrun) k it' Hk)
      as (it1 & Hk1 & Hf & Ho).
    simpl in Hk1. apply canvas_after_all_origin in Hk1 as (it & Hk0 & Hf' & Ho').
    exists it. split; [done|]. split; congruence.
Qed.

(** C3. In one advance step over particles with distinct handles, a
    particle is dropped from the remaining list exactly when its visual
    was absent before the move (the position query is empty) or the
    top-left corner after the move fails one of the four comparisons of
    0 <= x <= width and 0 <= y <= height; a dropped particle's visual is
    gone from the canvas, a kept one's is the moved visual; and the step
    returns normally in every case. *)
Theorem particle_removed_iff (particles : list (particle_t T)) (app : App T)
    (particle : handle) (dx dy : T) :
  NoDup (particles.*1.*1) →
  (particle, dx, dy) ∈ particles →
  ∃ remaining,
    value (advance_particles particles app) = Ok remaining ∧
    ((particle, dx, dy) ∉ remaining ↔
       coords_of (canvas app) particle = [] ∨
       ∃ it, canvas app !! particle = Some it ∧
         let x := num_add (x1 it) (num_mul dx tenth) in
         let y := num_add (y1 it) (num_mul dy tenth) in
         num_leb (of_int 0) x = false ∨ num_leb x (of_int (width app)) = false ∨
         num_leb (of_int 0) y = false ∨ num_leb y (of_int (height app)) = false) ∧
    ((particle, dx, dy) ∉ remaining ↔
       canvas (final (advance_particles particles app)) !! particle = None) ∧
    ((particle, dx, dy) ∈ remaining →
       canvas (final (advance_particles particles app)) !! particle =
         translate (num_mul dx tenth) (num_mul dy tenth) <$> canvas app !! particle).
Proof.
  intros Hnd Hin.
  exists (survivors (width app) (height app) (canvas app) particles).
  rewrite advance_particles_run. simpl.
  split; [done|].
  rewrite (canvas_after_all_lookup_in _ _ _ _ (particle, dx, dy) Hnd Hin).
  pose proof (elem_of_survivors (width app) (height app) particles (canvas app)
                (particle, dx, dy) Hnd) as He.
  assert ((particle, dx, dy) ∈ survivors (width app) (height app) (canvas app) particles
          ↔ stays (width app) (height app) (canvas app) (particle, dx, dy) = true)
    as He' by (rewrite He; tauto).
  rewrite He'. clear He He'.
  unfold stays, coords_of, between, moved_x, moved_y. simpl.
  destruct (canvas app !! particle) as [it|] eqn:Hit; simpl.
  - destruct (num_leb (of_int 0) (num_add (x1 it) (num_mul dx tenth))) eqn:E1;
    destruct (num_leb (num_add (x1 it) (num_mul dx tenth)) (of_int (width app))) eqn:E2;
    destruct (num_leb (of_int 0) (num_add (y1 it) (num_mul dy tenth))) eqn:E3;
    destruct (num_leb (num_add (y1 it) (num_mul dy tenth)) (of_int (height app))) eqn:E4;
    simpl; split_and!; try done; try (intuition congruence);
    (split;
     [ intros Hn;
       first [ by destruct Hn
             | right; exists it; split; [done|]; rewrite ?E1, ?E2, ?E3, ?E4; tauto ]
     | intros [?|(it0 & [= <-] & Hd)]; [done|];
       rewrite ?E1, ?E2, ?E3, ?E4 in Hd; intuition congruence ]).
  - split_and!; try done; try (intuition congruence).
Qed.

End Explosion.

(** ** The burst created by [explode] *)

Section Burst.
Context {T : Type} `{!Number T, !Libm T, !Random T}.

Local Open Scope Z_scope.

Lemma spawn_particle_run (x y_target : Z) (i : nat) (acc : list (particle_t T))
    (app : App T) :
  spawn_particle x y_target i acc app =
    match colors !! rnd_choice (S (S (draws app))) (length colors) with
    | Some color =>
        Result (Ok (acc ++ [(next_id app, drawn_dx (draws app),
                             drawn_dy (draws app))]))
               (spawned x y_target color app) []
    | None => Result (Raise IndexError) (set_draws (S (S (draws app))) app) []
    end.
Proof.
  unfold spawn_particle, mbind, M_bind, uniform, choice. simpl.
  change (length colors) with 7%nat.
  destruct (colors !! rnd_choice (S (S (draws app))) 7) as [color|]; simpl.
  - unfold spawned, drawn_dx, drawn_dy, drawn_angle, drawn_distance. by destruct app.
  - by destruct app.
Qed.

(** Creating particles never touches the items that exist already. *)
Lemma spawn_loop_frame (x y_target : Z) (l : list nat) (acc : list (particle_t T))
    (app : App T) (k : handle) :
  (k < next_id app)%nat →
  canvas (final (for_each (spawn_particle x y_target) l acc app)) !! k = canvas app !! k.
Proof.
  revert acc app. induction l as [|i l IH]; intros acc app Hk; [done|].
  simpl. unfold mbind, M_bind. rewrite spawn_particle_run.
  destruct (colors !! _) as [color|]; simpl; [|done].
  specialize (IH (acc ++ [(next_id app, drawn_dx (draws app), drawn_dy (draws app))])
                 (spawned x y_target color app)).
  destruct (for_each _ l _ _) as [v a2 s2]; simpl in *.
  rewrite IH by lia. by rewrite lookup_insert_ne by lia.
Qed.

Lemma spawn_loop_run (x y_target : Z) (l : list nat) (acc : list (particle_t T))
    (app : App T) :
  fair_choice →
  ∃ new app',
    for_each (spawn_particle x y_target) l acc app = Result (Ok (acc ++ new)) app' [] ∧
    new.*1.*1 = seq (next_id app) (length l) ∧
    next_id app' = (next_id app + length l)%nat ∧
    width app' = width app ∧ height app' = height app ∧
    (∀ k, (k < next_id app)%nat → canvas app' !! k = canvas app !! k) ∧
    (∀ i p, new !! i = Some p →
       ∃ color, color ∈ colors ∧
         canvas app' !! p.1.1 =
           Some (Oval (of_int x) (of_int y_target) (of_int (x + 5))
                      (of_int (y_target + 5)) color color) ∧
         p.1.2 = drawn_dx (draws app + 3 * i) ∧
         p.2 = drawn_dy (draws app + 3 * i)).
Proof.
  intros Hfair. revert acc app. induction l as [|i0 l IH]; intros acc app.
  - exists [], app. simpl. rewrite app_nil_r, Nat.add_0_r.
    split_and!; done.
  - simpl. unfold mbind, M_bind. rewrite spawn_particle_run.
    destruct (lookup_lt_is_Some_2 colors (rnd_choice (S (S (draws app))) (length colors)))
      as [color Hc]; [by apply Hfair; simpl; lia|].
    rewrite Hc. simpl.
    destruct (IH (acc ++ [(next_id app, drawn_dx (draws app),
                           drawn_dy (draws app))])
                 (spawned x y_target color app))
      as (new & app' & Hrun & Hids & Hnext & Hw & Hh & Hframe & Hitems).
    exists ((next_id app, drawn_dx (draws app),
             drawn_dy (draws app)) :: new), app'.
    rewrite Hrun. simpl in *. rewrite <- app_assoc. simpl.
    split_and!; try done.
    + f_equal. exact Hids.
    + lia.
    + intros k Hk. rewrite Hframe by lia. by rewrite lookup_insert_ne by lia.
    + intros [|i] p Hp; simpl in Hp.
      * injection Hp as <-. simpl. exists color. split.
        { by eapply list_elem_of_lookup_2. }
        rewrite Hframe by lia. rewrite lookup_insert_eq, Nat.add_0_r. done.
      * destruct (Hitems i p Hp) as (c & Hcol & Hit & Hvx & Hvy).
        exists c. split_and!; [done..| |].
        -- rewrite Hvx. f_equal. lia.
        -- rewrite Hvy. f_equal. lia.
Qed.

(** [explode], once the contract of [random.choice] is assumed: the
    rocket is deleted, 30 particles are created, and the first advance
    step runs at once. *)
Lemma explode_run (rocket : handle) (x y_target : Z) (app : App T) :
  fair_choice →
  ∃ particles app',
    spawn_particles x y_target (set_canvas (delete rocket (canvas app)) app)
      = Result (Ok particles) app' [] ∧
    explode rocket x y_target app = animate_explosion particles app'.
Proof.
  intros Hfair.
  destruct (spawn_loop_run x y_target (seq 0 30) []
              (set_canvas (delete rocket (canvas app)) app) Hfair)
    as (new & app' & Hrun & _).
  exists new, app'. split; [exact Hrun|].
  unfold explode, mbind, M_bind. simpl.
  unfold spawn_particles. rewrite Hrun. simpl.
  by destruct (animate_explosion new app').
Qed.

End Burst.

(** ** Rockets *)

Section Rocket.
Context {T : Type} `{!Number T, !Libm T, !Random T}.

Local Open Scope Z_scope.

Lemma animate_rocket_rising (rocket : handle) (x y_start y_target : Z) (app : App T) :
  y_start > y_target →
  animate_rocket rocket x y_start y_target app =
    Result (Ok ()) (risen rocket 1 app)
           [(30, CbAnimateRocket rocket x (y_start - 10) y_target)].
Proof.
  intros Hgt. unfold animate_rocket.
  destruct (Z.gtb_spec y_start y_target) as [_|Hle]; [done|lia].
Qed.

Lemma animate_rocket_arrived (rocket : handle) (x y_start y_target : Z) (app : App T) :
  y_start ≤ y_target →
  animate_rocket rocket x y_start y_target app = explode rocket x y_target app.
Proof.
  intros Hle. unfold animate_rocket.
  destruct (Z.gtb_spec y_start y_target) as [Hgt|_]; [lia|done].
Qed.

Lemma follow_rising (n : nat) (rocket : handle) (x y_start y_target : Z) (app : App T) :
  (n = 0%nat ∨ y_start - 10 * (Z.of_nat n - 1) > y_target) →
  follow n (CbAnimateRocket rocket x y_start y_target) app =
    Some (CbAnimateRocket rocket x (y_start - 10 * Z.of_nat n) y_target,
          risen rocket n app).
Proof.
  revert y_start app. induction n as [|n IH]; intros y_start app Hn.
  - simpl. do 3 f_equal. lia.
  - simpl. rewrite animate_rocket_rising by lia. simpl.
    rewrite IH by lia. do 3 f_equal. lia.
Qed.

(** A spawned rocket: [create_rocket] draws x and the target, creates the
    visual under a new id and takes the first step at y_start = height. *)
Lemma create_rocket_run (app : App T) :
  200 ≤ width app →
  let x := rnd_randint (draws app) 100 (width app - 100) in
  let y_target := rnd_randint (S (draws app)) 100 300 in
  let app1 :=
    set_next_id (S (next_id app))
      (set_canvas
         (<[next_id app := Oval (of_int (x - 2)) (of_int (height app - 10))
                                (of_int (x + 2)) (of_int (height app + 10))
                                "white" "white"]> (canvas app))
         (set_draws (S (S (draws app))) app)) in
  create_rocket app = animate_rocket (next_id app) x (height app) y_target app1 ∧
  (next_id app < next_id app1)%nat.
Proof.
  intros Hw x y_target app1. split; [|simpl; lia].
  unfold create_rocket, randint, create_oval, gets, mbind, M_bind.
  destruct (Z.ltb_spec (width app - 100) 100) as [Hlt|_]; [lia|].
  cbn -[animate_rocket Z.sub Z.add].
  replace (set_next_id _ _) with app1 by (unfold app1; by destruct app).
  by destruct (animate_rocket _ _ _ _ app1).
Qed.

(** Whatever happens in [explode], the rocket's visual is gone afterwards:
    it is deleted first, and the ids handed out later are new. *)
Lemma explode_deletes_rocket (rocket : handle) (x y_target : Z) (app : App T) :
  (rocket < next_id app)%nat →
  canvas (final (explode rocket x y_target app)) !! rocket = None.
Proof.
  intros Hold. unfold explode, spawn_particles.
  generalize (seq 0 30). intros l.
  pose proof (spawn_loop_frame x y_target l []
                (set_canvas (delete rocket (canvas app)) app) rocket Hold) as Hframe.
  unfold mbind, M_bind, canvas_delete, modify. simpl in *.
  rewrite lookup_delete_eq in Hframe.
  destruct (for_each (spawn_particle x y_target) l [] _)
    as [[ps|e] app1 sch]; simpl in *; [|done].
  rewrite animate_explosion_run. simpl.
  destruct (canvas_after_all _ _ _ _ !! rocket) as [it'|] eqn:Hk; [|done].
  apply canvas_after_all_origin in Hk as (it & Hk & _). congruence.
Qed.

(** C1. For every rocket, the callback pending after n advance steps
    carries the tracked height y_start - 10 n, as long as the rocket was
    still above its target before the last of these steps (the visual has
    then been moved n times by (0, -10)); a step taken at
    y_start <= y_target is the call of [explode] at (x, y_target), after
    which the rocket's visual is not on the canvas.  A rocket at y = 600
    with target 150 is at 600 - 10 k > 150 after k < 45 steps and at
    150 <= 150 after exactly 45. *)
Theorem rocket_descends_by_10_then_explodes
    (rocket : handle) (x y_start y_target : Z) (app : App T) :
  (∀ n : nat,
     (n = 0%nat ∨ y_start - 10 * (Z.of_nat n - 1) > y_target) →
     follow n (CbAnimateRocket rocket x y_start y_target) app =
       Some (CbAnimateRocket rocket x (y_start - 10 * Z.of_nat n) y_target,
             risen rocket n app)) ∧
  (y_start ≤ y_target →
     fire (CbAnimateRocket rocket x y_start y_target) app =
       explode rocket x y_target app ∧
     ((rocket < next_id app)%nat →
      canvas (final (fire (CbAnimateRocket rocket x y_start y_target) app))
        !! rocket = None)) ∧
  (∀ k : nat, (k < 45)%nat →
     follow k (CbAnimateRocket rocket 400 600 150) app =
       Some (CbAnimateRocket rocket 400 (600 - 10 * Z.of_nat k) 150, risen rocket k app) ∧
     600 - 10 * Z.of_nat k > 150) ∧
  follow 45 (CbAnimateRocket rocket 400 600 150) app =
    Some (CbAnimateRocket rocket 400 150 150, risen rocket 45 app) ∧
  fire (CbAnimateRocket rocket 400 150 150) (risen rocket 45 app) =
    explode rocket 400 150 (risen rocket 45 app).
Proof.
  split_and!.
  - intros n Hn. by apply follow_rising.
  - intros Hle. unfold fire. rewrite animate_rocket_arrived by done.
    split; [reflexivity|]. apply explode_deletes_rocket.
  - intros k Hk. split; [|lia]. apply follow_rising. lia.
  - rewrite follow_rising by lia. reflexivity.
  - unfold fire. apply animate_rocket_arrived. lia.
Qed.

End Rocket.

(** ** Resolutions *)

Section Resolution.
Context {T : Type}.

Local Open Scope Z_scope.

Lemma resolutions_lookup (key : string) (wh : Z * Z) :
  (key, wh) ∈ resolution_table → resolutions !! key = Some wh.
Proof.
  unfold resolution_table at 1. intros Hin.
  repeat (apply elem_of_cons in Hin as [[= -> ->]|Hin]; [by vm_compute|]).
  by apply elem_of_nil in Hin.
Qed.

Lemma resolutions_lookup_None (key : string) :
  key ∉ resolution_table.*1 → resolutions !! key = None.
Proof. intros Hkey. by apply not_elem_of_list_to_map_1. Qed.

Lemma init_run (resolution : string) (sw sh : Z) (rest : list (Z * Z)) (drawn : nat) :
  init (T := T) resolution (blank ((sw, sh) :: rest) drawn) =
    Result (Ok ())
      (started resolution (default (1280, 720) (resolutions !! resolution))
               sw sh rest drawn) [].
Proof.
  unfold init, resolutions_item.
  rewrite (resolutions_lookup "HD" (1280, 720)) by (unfold resolution_table; set_solver).
  by destruct (resolutions !! resolution) as [[w h]|].
Qed.

Lemma change_resolution_run (key : string) (w h sw sh : Z) (rest : list (Z * Z))
    (app : App T) :
  resolutions !! key = Some (w, h) →
  monitors app = (sw, sh) :: rest →
  change_resolution key app =
    Result (Ok ())
      (set_geometry (Z.min w (sw - 50), Z.min h (sh - 50))
         (set_size (Z.min w (sw - 50)) (Z.min h (sh - 50)) app)) [].
Proof.
  intros Hkey Hmon.
  unfold change_resolution, resolutions_item. rewrite Hkey.
  destruct app. simpl in Hmon. subst. reflexivity.
Qed.

(** C7. For each of the five named resolutions the constructor, on a
    screen of sw x sh, returns normally with self.width, self.height, the
    window geometry and the canvas size all equal to
    (min(w, sw - 50), min(h, sh - 50)) for the pair (w, h) the table gives
    that name; "360P" on a screen of at least 900 x 700 gives 800 x 600. *)
Theorem init_window_is_clamped_resolution (resolution : string) (w h sw sh : Z)
    (rest : list (Z * Z)) (drawn : nat) :
  (resolution, (w, h)) ∈
    [("360P", (800, 600)); ("HD", (1280, 720)); ("FULLHD", (1920, 1080));
     ("2K", (2560, 1440)); ("4K", (3840, 2160))]%string →
  let r := init (T := T) resolution (blank ((sw, sh) :: rest) drawn) in
  value r = Ok () ∧
  width (final r) = Z.min w (sw - 50) ∧
  height (final r) = Z.min h (sh - 50) ∧
  geometry (final r) = (Z.min w (sw - 50), Z.min h (sh - 50)) ∧
  canvas_size (final r) = (Z.min w (sw - 50), Z.min h (sh - 50)) ∧
  (resolution = "360P"%string → 900 ≤ sw → 700 ≤ sh →
   geometry (final r) = (800, 600)).
Proof.
  intros Hin r. subst r. rewrite init_run.
  rewrite (resolutions_lookup resolution (w, h)) by exact Hin. simpl.
  split_and!; try done.
  intros -> Hsw Hsh.
  assert ((w, h) = (800, 600)) as [= -> ->].
  { pose proof (resolutions_lookup "360P" (w, h) Hin) as Hl.
    vm_compute in Hl. congruence. }
  f_equal; lia.
Qed.

(** C10. A resolution string that is none of the five keys makes the
    constructor fall back to the HD pair (1280, 720), clamped like any
    other, without an exception; change_resolution with such a string
    raises KeyError and leaves the state as it was.  The menu built by
    the constructor offers the five keys only, and change_resolution
    returns normally for each of them when a monitor is present. *)
Theorem unknown_resolution_init_falls_back_change_fails (key : string)
    (sw sh : Z) (rest : list (Z * Z)) (drawn : nat) (app : App T) :
  key ∉ ["360P"; "HD"; "FULLHD"; "2K"; "4K"]%string →
  let r := init (T := T) key (blank ((sw, sh) :: rest) drawn) in
  value r = Ok () ∧
  width (final r) = Z.min 1280 (sw - 50) ∧
  height (final r) = Z.min 720 (sh - 50) ∧
  geometry (final r) = (Z.min 1280 (sw - 50), Z.min 720 (sh - 50)) ∧
  change_resolution key app = Result (Raise (KeyError key)) app [] ∧
  menu_options (final r) = ["360P"; "HD"; "FULLHD"; "2K"; "4K"]%string ∧
  (∀ k, k ∈ menu_options (final r) → monitors app ≠ [] →
        value (change_resolution k app) = Ok ()).
Proof.
  intros Hkey r. subst r. rewrite init_run.
  assert (resolutions !! key = None) as Hnone by (by apply resolutions_lookup_None).
  rewrite Hnone. simpl.
  split_and!; try done.
  - unfold change_resolution, resolutions_item, mbind, M_bind. by rewrite Hnone.
  - intros k Hk Hmon.
    destruct (monitors app) as [|[sw' sh'] rest'] eqn:Hm; [done|].
    assert (∃ wh, (k, wh) ∈ resolution_table) as [[w h] Hwh].
    { change (k ∈ (resolution_table.*1)) in Hk.
      apply list_elem_of_fmap in Hk as (kw & -> & Hkw). exists kw.2. by destruct kw. }
    by rewrite (change_resolution_run k w h sw' sh' rest' app
                  (resolutions_lookup _ _ Hwh) Hm).
Qed.

End Resolution.

(** ** Trajectories of particles *)

Section Track.
Context {T : Type} `{!Number T}.

(** In any arithmetic: a particle still listed after [n] advance steps was
    listed at the start with the same velocity, and its visual has been
    translated [n] times by (dx * 0.1, dy * 0.1). *)
Lemma explosion_frames_track (n : nat) (ps ps' : list (particle_t T)) (app app' : App T)
    (h : handle) (dx dy : T) (it : item T) :
  NoDup (ps.*1.*1) →
  explosion_frames n ps app = Some (ps', app') →
  (h, dx, dy) ∈ ps' →
  canvas app !! h = Some it →
  (h, dx, dy) ∈ ps ∧
  canvas app' !! h =
    Some (Nat.iter n (translate (num_mul dx tenth) (num_mul dy tenth)) it).
Proof.
  revert ps app it. induction n as [|n IH]; intros ps app it Hnd Hrun Hin Hit.
  - injection Hrun as <- <-. done.
  - rewrite explosion_frames_step in Hrun. simpl in Hrun.
    destruct (truthy _); [|done].
    pose proof (elem_of_sublist _ _ _ Hin (explosion_frames_sublist _ _ _ _ _ Hrun))
      as Hrem.
    apply elem_of_survivors in Hrem as [Hps Hstay]; [|done].
    pose proof (canvas_after_all_lookup_in (width app) (height app) ps (canvas app)
                  (h, dx, dy) Hnd Hps) as Hmoved.
    rewrite Hstay in Hmoved. simpl in Hmoved. rewrite Hit in Hmoved. simpl in Hmoved.
    destruct (IH _ _ _ (survivors_NoDup _ _ _ _ Hnd) Hrun Hin Hmoved) as [_ Hfinal].
    split; [done|]. by rewrite Nat.iter_succ_r.
Qed.

Lemma iter_translate_moved (n : nat) (dx dy : T) (it : item T) :
  Nat.iter n (translate (num_mul dx tenth) (num_mul dy tenth)) it =
    Oval (moved_times n dx (x1 it)) (moved_times n dy (y1 it))
         (moved_times n dx (x2 it)) (moved_times n dy (y2 it))
         (fill it) (outline it).
Proof.
  induction n as [|n IH].
  - by destruct it.
  - rewrite Nat.iter_succ, IH. reflexivity.
Qed.

Lemma explosion_frames_NoDup (n : nat) (ps ps' : list (particle_t T)) (app app' : App T) :
  NoDup (ps.*1.*1) →
  explosion_frames n ps app = Some (ps', app') →
  NoDup (ps'.*1.*1).
Proof.
  intros Hnd Hrun. eapply sublist_NoDup; [exact Hnd|].
  do 2 apply fmap_sublist. by eapply explosion_frames_sublist.
Qed.


End Track.

(** ** The velocities drawn by [explode] *)

Section Velocities.
Context {T : Type} `{!Number T, !Libm T, !Random T}.

Local Open Scope Z_scope.

(** The burst of [explode]: 30 particles under the next 30 ids, each one's
    visual at (x, y_target), each velocity computed from two draws. *)
Lemma explode_burst (rocket : handle) (x y_target : Z) (app : App T) :
  fair_choice →
  ∃ particles app',
    spawn_particles x y_target (set_canvas (delete rocket (canvas app)) app)
      = Result (Ok particles) app' [] ∧
    explode rocket x y_target app = animate_explosion particles app' ∧
    particles.*1.*1 = seq (next_id app) 30 ∧
    width app' = width app ∧ height app' = height app ∧
    ∀ p, p ∈ particles →
      ∃ (color : string) (d : nat),
        color ∈ colors ∧
        canvas app' !! p.1.1 =
          Some (Oval (of_int x) (of_int y_target) (of_int (x + 5))
                     (of_int (y_target + 5)) color color) ∧
        p.1.2 = drawn_dx d ∧ p.2 = drawn_dy d.
Proof.
  intros Hc.
  destruct (spawn_loop_run x y_target (seq 0 30) []
              (set_canvas (delete rocket (canvas app)) app) Hc)
    as (new & app' & Hrun & Hids & _ & Hw & Hh & _ & Hitems).
  destruct (explode_run rocket x y_target app Hc) as (ps & app1 & Hsp & Hex).
  unfold spawn_particles in Hsp. rewrite Hrun in Hsp. injection Hsp as <- <-.
  exists new, app'. split; [exact Hrun|]. split; [exact Hex|].
  split; [exact Hids|]. split; [exact Hw|]. split; [exact Hh|].
  intros p Hp. apply list_elem_of_lookup in Hp as [i Hi].
  destruct (Hitems i _ Hi) as (color & Hcol & Hit & Hdx & Hdy).
  exists color, (draws (set_canvas (delete rocket (canvas app)) app) + 3 * i)%nat.
  done.
Qed.


End Velocities.

(** ** The end of the advance loop *)

Section Termination.
Context {T : Type} `{!Number T}.

Local Open Scope Z_scope.

Lemma moved_times_S (n : nat) (d v : T) :
  moved_times (S n) d v = moved_times n d (num_add v (num_mul d tenth)).
Proof. unfold moved_times. by rewrite Nat.iter_succ_r. Qed.

Lemma leaves_by_S (n : nat) (w h : Z) (x y dx dy : T) :
  leaves_by (S n) w h x y dx dy ↔
    between 0 (num_add x (num_mul dx tenth)) w &&
      between 0 (num_add y (num_mul dy tenth)) h = false ∨
    leaves_by n w h (num_add x (num_mul dx tenth)) (num_add y (num_mul dy tenth)) dx dy.
Proof.
  unfold leaves_by. split.
  - intros (j & Hj & Hout). destruct j as [|[|j]]; [lia| |].
    + left. exact Hout.
    + right. exists (S j). split; [lia|]. by rewrite <- !moved_times_S.
  - intros [Hout|(j & Hj & Hout)].
    + exists 1%nat. split; [lia|exact Hout].
    + exists (S j). split; [lia|]. by rewrite !moved_times_S.
Qed.

Lemma leaves_by_0 (w h : Z) (x y dx dy : T) : ¬ leaves_by 0 w h x y dx dy.
Proof. intros (j & Hj & _). lia. Qed.

Lemma same_handle_same_particle (ps : list (particle_t T)) (p q : particle_t T) :
  NoDup (ps.*1.*1) → p ∈ ps → q ∈ ps → p.1.1 = q.1.1 → p = q.
Proof.
  induction ps as [|r ps IH]; intros Hnd Hp Hq Heq.
  - by apply elem_of_nil in Hp.
  - simpl in Hnd. apply NoDup_cons in Hnd as [Hr Hnd].
    apply elem_of_cons in Hp as [->|Hp]; apply elem_of_cons in Hq as [->|Hq].
    + done.
    + exfalso. apply Hr. rewrite Heq. by apply elem_of_handles.
    + exfalso. apply Hr. rewrite <- Heq. by apply elem_of_handles.
    + by apply IH.
Qed.

Lemma explosion_end_unfold (fuel : nat) (ps : list (particle_t T)) (app : App T) :
  explosion_end fuel ps app =
    match survivors (width app) (height app) (canvas app) ps with
    | [] =>
        Some (1%nat,
              set_canvas (canvas_after_all (width app) (height app) (canvas app) ps) app)
    | q :: rem =>
        match fuel with
        | O => None
        | S k =>
            match explosion_end k (q :: rem)
                    (set_canvas
                       (canvas_after_all (width app) (height app) (canvas app) ps) app)
            with
            | Some (n, a) => Some (S n, a)
            | None => None
            end
        end
    end.
Proof.
  destruct fuel; cbn [explosion_end]; rewrite animate_explosion_run; cbv zeta;
    by destruct (survivors _ _ _ _).
Qed.

(** A particle with a visual is kept by a step exactly when the moved
    corner passes the test. *)
Lemma stays_inside (w h : Z) (c : gmap handle (item T)) (p : particle_t T) (it : item T) :
  c !! p.1.1 = Some it →
  stays w h c p =
    between 0 (num_add (x1 it) (num_mul p.1.2 tenth)) w &&
      between 0 (num_add (y1 it) (num_mul p.2 tenth)) h.
Proof. unfold stays, moved_x, moved_y. by intros ->. Qed.

Lemma stays_visual (w h : Z) (c : gmap handle (item T)) (p : particle_t T) :
  stays w h c p = true → ∃ it, c !! p.1.1 = Some it.
Proof. unfold stays. destruct (c !! p.1.1) as [it|]; [eauto|done]. Qed.

(** The loop stops within [S fuel] steps exactly when every particle that
    has a visual leaves the canvas within that many moves; when it stops,
    every visual of the explosion is gone and nothing else has changed. *)
Lemma explosion_end_spec (fuel : nat) (ps : list (particle_t T)) (app : App T) :
  NoDup (ps.*1.*1) →
  (is_Some (explosion_end fuel ps app) ↔
     ∀ p it, p ∈ ps → canvas app !! p.1.1 = Some it →
       leaves_by (S fuel) (width app) (height app) (x1 it) (y1 it) p.1.2 p.2) ∧
  (∀ n a, explosion_end fuel ps app = Some (n, a) →
     (1 ≤ n ≤ S fuel)%nat ∧
     (∀ p, p ∈ ps → canvas a !! p.1.1 = None) ∧
     (∀ k, k ∉ ps.*1.*1 → canvas a !! k = canvas app !! k) ∧
     width a = width app ∧ height a = height app).
Proof.
  revert ps app. induction fuel as [|fuel IH]; intros ps app Hnd.
  all: rewrite explosion_end_unfold.
  all: pose proof (elem_of_survivors (width app) (height app) ps (canvas app)) as Hsurv.
  all: pose proof (canvas_after_all_lookup_in (width app) (height app) ps (canvas app))
         as Hin.
  all: pose proof (canvas_after_all_lookup_notin (width app) (height app) ps (canvas app))
         as Hout.
  all: pose proof (survivors_NoDup (width app) (height app) ps (canvas app) Hnd) as Hnd'.
  all: destruct (survivors (width app) (height app) (canvas app) ps) as [|q rem] eqn:Hrem.
  - (* fuel = 0, nobody remains *)
    split.
    + split; [|by eauto]. intros _ p it Hp Hit. apply leaves_by_S. left.
      rewrite <- (stays_inside _ _ _ p it Hit).
      destruct (stays (width app) (height app) (canvas app) p) eqn:Hs; [|done].
      exfalso. eapply elem_of_nil. apply (Hsurv p Hnd). done.
    + intros n a [= <- <-]. split; [lia|]. split; [|split; [|done]].
      * intros p Hp. cbn [canvas set_canvas]. rewrite (Hin p Hnd Hp).
        destruct (stays (width app) (height app) (canvas app) p) eqn:Hs; [|done].
        exfalso. eapply elem_of_nil. apply (Hsurv p Hnd). done.
      * intros k Hk. cbn [canvas set_canvas]. by apply Hout.
  - (* fuel = 0, somebody remains *)
    split; [|done]. split; [by intros [? ?]|]. intros Hall. exfalso.
    assert (q ∈ q :: rem) as Hq by left.
    apply (Hsurv q Hnd) in Hq as [Hq Hs].
    destruct (stays_visual _ _ _ _ Hs) as [it Hit].
    specialize (Hall q it Hq Hit). apply leaves_by_S in Hall as [Hall|Hall].
    + rewrite <- (stays_inside _ _ _ q it Hit) in Hall. congruence.
    + by apply leaves_by_0 in Hall.
  - (* nobody remains *)
    split.
    + split; [|by eauto]. intros _ p it Hp Hit. apply leaves_by_S. left.
      rewrite <- (stays_inside _ _ _ p it Hit).
      destruct (stays (width app) (height app) (canvas app) p) eqn:Hs; [|done].
      exfalso. eapply elem_of_nil. apply (Hsurv p Hnd). done.
    + intros n a [= <- <-]. split; [lia|]. split; [|split; [|done]].
      * intros p Hp. cbn [canvas set_canvas]. rewrite (Hin p Hnd Hp).
        destruct (stays (width app) (height app) (canvas app) p) eqn:Hs; [|done].
        exfalso. eapply elem_of_nil. apply (Hsurv p Hnd). done.
      * intros k Hk. cbn [canvas set_canvas]. by apply Hout.
  - (* somebody remains: the loop goes on from the next state *)
    set (app1 := set_canvas
                   (canvas_after_all (width app) (height app) (canvas app) ps) app) in *.
    destruct (IH (q :: rem) app1 Hnd') as [IHiff IHend].
    change (width app1) with (width app) in IHiff, IHend.
    change (height app1) with (height app) in IHiff, IHend.
    change (canvas app1) with
      (canvas_after_all (width app) (height app) (canvas app) ps) in IHiff, IHend.
    assert (∀ p it, p ∈ ps → canvas app !! p.1.1 = Some it →
              stays (width app) (height app) (canvas app) p = true →
              p ∈ q :: rem ∧
              canvas_after_all (width app) (height app) (canvas app) ps !! p.1.1 =
                Some (translate (num_mul p.1.2 tenth) (num_mul p.2 tenth) it)) as Hkept.
    { intros p it Hp Hit Hs. split; [by apply (Hsurv p Hnd)|].
      by rewrite (Hin p Hnd Hp), Hs, Hit. }
    split.
    + transitivity (is_Some (explosion_end fuel (q :: rem) app1)).
      { destruct (explosion_end fuel (q :: rem) app1) as [[n a]|].
        - split; intros _; eauto.
        - split; intros [? ?]; done. }
      rewrite IHiff. split.
      * intros Hall p it Hp Hit. apply leaves_by_S.
        rewrite <- (stays_inside _ _ _ p it Hit).
        destruct (stays (width app) (height app) (canvas app) p) eqn:Hs; [|by left].
        right. destruct (Hkept p it Hp Hit Hs) as [Hp' Hit'].
        exact (Hall p _ Hp' Hit').
      * intros Hall p it' Hp' Hit'.
        apply (Hsurv p Hnd) in Hp' as [Hp Hs].
        destruct (stays_visual _ _ _ _ Hs) as [it Hit].
        destruct (Hkept p it Hp Hit Hs) as [_ Hmoved].
        rewrite Hmoved in Hit'. injection Hit' as <-.
        specialize (Hall p it Hp Hit). apply leaves_by_S in Hall as [Hall|Hall].
        -- rewrite <- (stays_inside _ _ _ p it Hit) in Hall. congruence.
        -- exact Hall.
    + intros n a Hend.
      destruct (explosion_end fuel (q :: rem) app1) as [[n' a']|] eqn:He; [|done].
      injection Hend as <- <-.
      destruct (IHend n' a' eq_refl) as (Hn & Hgone & Hframe & Hw & Hh).
      split; [lia|]. split; [|split; [|done]].
      * intros p Hp.
        destruct (stays (width app) (height app) (canvas app) p) eqn:Hs.
        -- apply Hgone. by apply (Hsurv p Hnd).
        -- rewrite Hframe.
           ++ by rewrite (Hin p Hnd Hp), Hs.
           ++ intros Hk. apply list_elem_of_fmap in Hk as (v & Hv & Hk).
              apply list_elem_of_fmap in Hk as (r & -> & Hr).
              pose proof (proj1 (Hsurv r Hnd) Hr) as [Hr' Hsr].
              assert (p = r) as -> by (by apply (same_handle_same_particle ps)).
              congruence.
      * intros k Hk. rewrite Hframe.
        -- by apply Hout.
        -- intros Hk'. apply Hk.
           apply list_elem_of_fmap in Hk' as (v & -> & Hk').
           apply list_elem_of_fmap in Hk' as (r & -> & Hr).
           apply elem_of_handles. by apply (Hsurv r Hnd).
Qed.

(** The step that ends the loop is a step of the loop: it comes after
    [n - 1] steps that rescheduled, finds no particle to keep and
    schedules nothing. *)
Lemma explosion_end_last_step (fuel : nat) (ps : list (particle_t T)) (app : App T)
    (n : nat) (a : App T) :
  explosion_end fuel ps app = Some (n, a) →
  (1 ≤ n)%nat ∧
  ∃ last app_last,
    explosion_frames (n - 1) ps app = Some (last, app_last) ∧
    advance_particles last app_last = Result (Ok []) a [] ∧
    animate_explosion last app_last = Result (Ok ()) a [].
Proof.
  revert ps app n a. induction fuel as [|fuel IH]; intros ps app n a Hend.
  all: rewrite explosion_end_unfold in Hend.
  all: destruct (survivors (width app) (height app) (canvas app) ps) as [|q rem] eqn:Hrem.
  all: try done.
  1, 2: injection Hend as <- <-; split; [lia|]; exists ps, app;
    split; [reflexivity|];
    rewrite advance_particles_run, animate_explosion_run; cbv zeta;
    rewrite Hrem; done.
  destruct (explosion_end fuel (q :: rem) _) as [[n' a']|] eqn:He; [|done].
  injection Hend as <- <-.
  destruct (IH _ _ _ _ He) as (Hn & last & app_last & Hrun & Hadv & Hanim).
  split; [lia|]. exists last, app_last. split; [|done].
  replace (S n' - 1)%nat with (S (n' - 1)) by lia.
  rewrite explosion_frames_step. cbv zeta. rewrite Hrem. exact Hrun.
Qed.

(** A step that leaves the state and the list as they were is repeated
    for ever. *)
Lemma explosion_frames_stuck (ps : list (particle_t T)) (app : App T) :
  animate_explosion ps app = Result (Ok ()) app [(50, CbAnimateExplosion ps)] →
  (∀ n, explosion_frames n ps app = Some (ps, app)) ∧
  (∀ fuel, explosion_end fuel ps app = None).
Proof.
  intros Hstep. split.
  - intros n. induction n as [|n IH]; [done|].
    cbn [explosion_frames]. rewrite Hstep. exact IH.
  - intros fuel. induction fuel as [|fuel IH].
    + cbn [explosion_end]. by rewrite Hstep.
    + cbn [explosion_end]. rewrite Hstep. cbn [value scheduled final]. by rewrite IH.
Qed.

End Termination.

Section ExplosionEnd.
Context {T : Type} `{!Number T, !Libm T, !Random T}.

Local Open Scope Z_scope.


End ExplosionEnd.

Lemma demo_80_frames :
  explosion_frames 80 [demo_particle] demo_app =
    Some ([demo_particle], demo_app_at 800%float 805%float).
Proof. vm_compute. reflexivity. Qed.

Lemma demo_handles_distinct : NoDup ([demo_particle].*1.*1).
Proof. apply NoDup_singleton. Qed.

Lemma demo_ids_below_next : ids_below_next demo_app.
Proof.
  intros k it Hk. unfold demo_app in Hk. cbn [canvas] in Hk.
  apply lookup_singleton_Some in Hk as [<- _]. simpl. lia.
Qed.

Lemma sample_random_choice : @fair_choice float sample_random.
Proof. intros n len Hlen. exact Hlen. Qed.

Lemma sample_random_uniform : @fair_uniform float float_Number sample_random.
Proof. intros n. split; vm_compute; reflexivity. Qed.

Lemma sample_random_randint : @fair_randint float sample_random.
Proof. intros n a b Hab. simpl. lia. Qed.




(** C6 as stated fails: after 80 advance steps of 5 units each the
    particle that started at x = 400 is at x = 800, which the inclusive
    test 0 <= x <= 800 accepts, so it is still listed and still on the
    canvas. *)
Lemma particle_at_800_after_80_frames_is_kept :
  explosion_frames 80 [demo_particle] demo_app =
    Some ([demo_particle], demo_app_at 800%float 805%float) ∧
  canvas (demo_app_at 800%float 805%float) !! 1%nat =
    Some (Oval 800%float 150%float 805%float 155%float "red" "red") ∧
  num_leb 800%float (of_int (width demo_app)) = true.
Proof.
  split; [exact demo_80_frames|].
  split; [apply lookup_singleton_eq | vm_compute; reflexivity].
Qed.

(** C6, amended.  In binary64 each step moves the particle by
    50 * 0.1 = 5 exactly; after 80 steps it is at x = 800 and still
    listed; the 81st step moves it to 805 > 800, deletes its visual,
    keeps no particle and schedules nothing, so the loop has no 82nd
    step. *)
Theorem particle_removed_at_frame_81 :
  num_mul 50%float tenth = 5%float ∧
  explosion_frames 80 [demo_particle] demo_app =
    Some ([demo_particle], demo_app_at 800%float 805%float) ∧
  num_add 800%float (num_mul 50%float tenth) = 805%float ∧
  num_leb 805%float (of_int (width demo_app)) = false ∧
  advance_particles [demo_particle] (demo_app_at 800%float 805%float) =
    Result (Ok []) (set_canvas ∅ demo_app) [] ∧
  scheduled (animate_explosion [demo_particle] (demo_app_at 800%float 805%float)) = [] ∧
  explosion_frames 81 [demo_particle] demo_app = None.
Proof.
  split_and!; vm_compute; reflexivity.
Qed.

(** *** Witnesses: the theorems with hypotheses, at the scenarios *)

Lemma particle_removed_iff_witness :
  NoDup ([demo_particle].*1.*1) ∧
  demo_particle ∈ [demo_particle] ∧
  ∃ remaining,
    value (advance_particles [demo_particle] demo_app) = Ok remaining ∧
    ((1%nat, 50%float, 0%float) ∉ remaining ↔
       coords_of (canvas demo_app) 1%nat = [] ∨
       ∃ it, canvas demo_app !! 1%nat = Some it ∧
         let x := num_add (x1 it) (num_mul 50%float tenth) in
         let y := num_add (y1 it) (num_mul 0%float tenth) in
         num_leb (of_int 0) x = false ∨ num_leb x (of_int (width demo_app)) = false ∨
         num_leb (of_int 0) y = false ∨ num_leb y (of_int (height demo_app)) = false) ∧
    ((1%nat, 50%float, 0%float) ∉ remaining ↔
       canvas (final (advance_particles [demo_particle] demo_app)) !! 1%nat = None) ∧
    ((1%nat, 50%float, 0%float) ∈ remaining →
       canvas (final (advance_particles [demo_particle] demo_app)) !! 1%nat =
         translate (num_mul 50%float tenth) (num_mul 0%float tenth)
           <$> canvas demo_app !! 1%nat).
Proof.
  split; [exact demo_handles_distinct|].
  split; [apply list_elem_of_here|].
  exact (particle_removed_iff [demo_particle] demo_app 1%nat 50%float 0%float
           demo_handles_distinct (list_elem_of_here _ _)).
Defined.

Lemma particles_only_leave_witness :
  explosion_frames 80 [demo_particle] demo_app =
    Some ([demo_particle], demo_app_at 800%float 805%float) ∧
  [demo_particle] `sublist_of` [demo_particle] ∧
  (∀ p, p ∈ [demo_particle] → p ∈ [demo_particle]) ∧
  (∀ k it', canvas (demo_app_at 800%float 805%float) !! k = Some it' →
     ∃ it, canvas demo_app !! k = Some it ∧
           fill it' = fill it ∧ outline it' = outline it).
Proof.
  split; [exact demo_80_frames|].
  exact (particles_only_leave 80 [demo_particle] [demo_particle] demo_app
           (demo_app_at 800%float 805%float) demo_80_frames).
Defined.




Lemma init_window_is_clamped_resolution_witness :
  ("360P"%string, (800, 600)%Z) ∈
    [("360P", (800, 600)); ("HD", (1280, 720)); ("FULLHD", (1920, 1080));
     ("2K", (2560, 1440)); ("4K", (3840, 2160))]%string%Z ∧
  geometry (final (init (T := float) "360P" (blank [(1920, 1080)%Z] 0))) =
    (Z.min 800 (1920 - 50), Z.min 600 (1080 - 50)).
Proof.
  split; [apply list_elem_of_here|].
  exact (proj1 (proj2 (proj2 (proj2
           (init_window_is_clamped_resolution (T := float) "360P" 800 600 1920 1080 [] 0
              (list_elem_of_here _ _)))))).
Defined.

Lemma unknown_resolution_witness :
  ("8K"%string ∉ ["360P"; "HD"; "FULLHD"; "2K"; "4K"]%string) ∧
  width (final (init (T := float) "8K" (blank [(1920, 1080)%Z] 0))) =
    Z.min 1280 (1920 - 50) ∧
  change_resolution "8K" demo_app = Result (Raise (KeyError "8K")) demo_app [].
Proof.
  assert ("8K"%string ∉ ["360P"; "HD"; "FULLHD"; "2K"; "4K"]%string) as Hkey
    by (repeat (apply not_elem_of_cons; split; [done|]); apply not_elem_of_nil).
  split; [exact Hkey|].
  pose proof (unknown_resolution_init_falls_back_change_fails (T := float)
                "8K" 1920 1080 [] 0 demo_app Hkey) as (_ & Hw & _ & _ & Hch & _).
  split; [exact Hw|exact Hch].
Defined.

(** * Further properties of the code *)

(** ** The window: [__init__] and [change_resolution] *)

Section Window.
Context {T : Type}.

Local Open Scope Z_scope.

Lemma resolutions_lookup_inv (key : string) (w h : Z) :
  resolutions !! key = Some (w, h) →
  (key, (w, h)) ∈ resolution_table ∧ 800 ≤ w ≤ 3840 ∧ 600 ≤ h ≤ 2160.
Proof.
  intros Hkey. apply elem_of_list_to_map_2 in Hkey. split; [exact Hkey|].
  unfold resolution_table in Hkey.
  repeat (apply elem_of_cons in Hkey as [[= -> -> ->]|Hkey]; [lia|]).
  by apply elem_of_nil in Hkey.
Qed.

(** X1. Whatever string is passed to the constructor, known or not, on a
    first monitor of sw x sh it returns normally with a window that fits:
    self.width <= sw - 50 and <= 3840, self.height <= sh - 50 and
    <= 2160; the geometry and the canvas size are (self.width,
    self.height); the canvas is empty, the menu variable shows the string
    as given and nothing is scheduled. *)
Theorem init_window_fits_screen (resolution : string) (sw sh : Z)
    (rest : list (Z * Z)) (drawn : nat) :
  let r := init (T := T) resolution (blank ((sw, sh) :: rest) drawn) in
  value r = Ok () ∧ scheduled r = [] ∧
  width (final r) ≤ sw - 50 ∧ width (final r) ≤ 3840 ∧
  height (final r) ≤ sh - 50 ∧ height (final r) ≤ 2160 ∧
  geometry (final r) = (width (final r), height (final r)) ∧
  canvas_size (final r) = (width (final r), height (final r)) ∧
  canvas (final r) = ∅ ∧
  resolution_var (final r) = resolution ∧
  draws (final r) = drawn.
Proof.
  intros r. subst r. rewrite init_run.
  destruct (resolutions !! resolution) as [[w h]|] eqn:Hkey; simpl.
  - apply resolutions_lookup_inv in Hkey as (_ & Hw & Hh).
    split_and!; try done; lia.
  - split_and!; try done; lia.
Qed.

(** X2. change_resolution with one of the five keys, on a first monitor of
    sw x sh, returns normally, sets self.width and self.height to the
    clamped pair and the window geometry to them, and changes nothing
    else: the canvas keeps its items and the size it was created with,
    no id is handed out, no random number is drawn and nothing is
    scheduled. *)
Theorem change_resolution_resizes_window_only (key : string) (w h sw sh : Z)
    (rest : list (Z * Z)) (app : App T) :
  (key, (w, h)) ∈ resolution_table →
  monitors app = (sw, sh) :: rest →
  let r := change_resolution key app in
  value r = Ok () ∧ scheduled r = [] ∧
  width (final r) = Z.min w (sw - 50) ∧
  height (final r) = Z.min h (sh - 50) ∧
  geometry (final r) = (Z.min w (sw - 50), Z.min h (sh - 50)) ∧
  canvas (final r) = canvas app ∧
  canvas_size (final r) = canvas_size app ∧
  next_id (final r) = next_id app ∧
  draws (final r) = draws app ∧
  monitors (final r) = monitors app ∧
  menu_options (final r) = menu_options app.
Proof.
  intros Hkey Hmon r. subst r.
  rewrite (change_resolution_run key w h sw sh rest app
             (resolutions_lookup key (w, h) Hkey) Hmon).
  simpl. split_and!; done.
Qed.

(** X3. Selections do not accumulate: after two selections in a row the
    state is the one the second selection alone would have produced, so a
    small window can be made large again. *)
Theorem change_resolution_last_wins (key key' : string) (app : App T) :
  key ∈ resolution_table.*1 →
  key' ∈ resolution_table.*1 →
  monitors app ≠ [] →
  value (change_resolution key app) = Ok () ∧
  change_resolution key' (final (change_resolution key app)) =
    change_resolution key' app.
Proof.
  intros Hk Hk' Hmon.
  destruct (monitors app) as [|[sw sh] rest] eqn:Hm; [done|].
  apply list_elem_of_fmap in Hk as ([k [w h]] & -> & Hk).
  apply list_elem_of_fmap in Hk' as ([k' [w' h']] & -> & Hk').
  simpl.
  rewrite (change_resolution_run k w h sw sh rest app
             (resolutions_lookup k (w, h) Hk) Hm).
  split; [done|]. simpl.
  rewrite (change_resolution_run k' w' h' sw sh rest app
             (resolutions_lookup k' (w', h') Hk') Hm).
  erewrite change_resolution_run;
    [|exact (resolutions_lookup k' (w', h') Hk')|simpl; exact Hm].
  by destruct app.
Qed.

(** X4. When screeninfo reports no monitor, the constructor raises
    IndexError before anything is set up, for every resolution string;
    change_resolution with a valid key raises IndexError too, but only
    after it has overwritten self.width and self.height with the
    unclamped pair of the table: the window geometry stays as it was. *)
Theorem no_monitor_raises_IndexError (resolution key : string) (w h : Z)
    (drawn : nat) (app : App T) :
  (key, (w, h)) ∈ resolution_table →
  monitors app = [] →
  init (T := T) resolution (blank [] drawn) =
    Result (Raise IndexError) (blank [] drawn) [] ∧
  change_resolution key app = Result (Raise IndexError) (set_size w h app) [].
Proof.
  intros Hkey Hmon. split; [reflexivity|].
  unfold change_resolution, resolutions_item.
  rewrite (resolutions_lookup key (w, h) Hkey).
  destruct app. simpl in Hmon. subst. reflexivity.
Qed.

End Window.

(** ** Spawning: [start_fireworks] and [create_rocket] *)

Section Spawn.
Context {T : Type} `{!Number T, !Libm T, !Random T}.

Local Open Scope Z_scope.

Lemma create_rocket_narrow (app : App T) :
  width app < 200 → create_rocket app = Result (Raise ValueError) app [].
Proof.
  intros Hw. unfold create_rocket, randint, gets, mbind, M_bind.
  destruct (Z.ltb_spec (width app - 100) 100) as [_|Hge]; [done|lia].
Qed.

(** X5. On a window narrower than 200 the range of random.randint(100,
    width - 100) is empty: create_rocket raises ValueError before it draws
    anything or creates a visual, and start_fireworks, which calls it
    first, raises too without rescheduling itself, so no rocket is ever
    spawned again. *)
Theorem start_fireworks_narrow_window_stops (app : App T) :
  width app < 200 →
  create_rocket app = Result (Raise ValueError) app [] ∧
  start_fireworks app = Result (Raise ValueError) app [] ∧
  next_of (fire CbStartFireworks app) = None.
Proof.
  intros Hw.
  pose proof (create_rocket_narrow app Hw) as Hcr.
  assert (start_fireworks app = Result (Raise ValueError) app []) as Hsf.
  { unfold start_fireworks, mbind, M_bind. by rewrite Hcr. }
  split; [exact Hcr|]. split; [exact Hsf|].
  unfold fire, next_of. by rewrite Hsf.
Qed.

(** X6. On a window at least 200 wide and more than 300 high (every
    resolution of the table on a large enough screen), under the contract
    of random.randint, start_fireworks returns normally having drawn
    x in [100, width - 100] and y_target in [100, 300], created one white
    oval (x - 2, height - 10, x + 2, height + 10) under a new id, moved it
    up by 10, and scheduled exactly two callbacks: the rocket's next step
    at tracked height height - 10 after 30 ms, and itself after 1000 ms. *)
Theorem start_fireworks_spawns_and_reschedules (app : App T) :
  200 ≤ width app →
  300 < height app →
  fair_randint →
  ∃ x y_target,
    100 ≤ x ≤ width app - 100 ∧
    100 ≤ y_target ≤ 300 ∧
    value (start_fireworks app) = Ok () ∧
    scheduled (start_fireworks app) =
      [(30, CbAnimateRocket (next_id app) x (height app - 10) y_target);
       (1000, CbStartFireworks)] ∧
    canvas (final (start_fireworks app)) =
      <[next_id app :=
          translate (of_int 0) (of_int (-10))
            (Oval (of_int (x - 2)) (of_int (height app - 10))
                  (of_int (x + 2)) (of_int (height app + 10))
                  "white" "white")]> (canvas app) ∧
    next_id (final (start_fireworks app)) = S (next_id app) ∧
    draws (final (start_fireworks app)) = S (S (draws app)).
Proof.
  intros Hw Hh Hfair.
  exists (rnd_randint (draws app) 100 (width app - 100)),
         (rnd_randint (S (draws app)) 100 300).
  pose proof (Hfair (draws app) 100 (width app - 100)) as Hx.
  pose proof (Hfair (S (draws app)) 100 300) as Hy.
  split; [apply Hx; lia|]. split; [apply Hy; lia|].
  destruct (create_rocket_run app Hw) as [Hrun _]. cbv zeta in Hrun.
  unfold start_fireworks, mbind, M_bind. rewrite Hrun.
  rewrite animate_rocket_rising by lia.
  simpl. split_and!; try done.
  by rewrite alter_insert_eq.
Qed.

(** X7. A rocket takes exactly ceil((y_start - y_target) / 10) rising
    steps (none when it starts at or above its target height): before
    each of them it is above the target, after the last its tracked
    height is at most y_target and, if it rose at all, less than 10 below
    it; the step after that is the call of explode at (x, y_target),
    which is therefore up to 9 units away from where the visual stopped. *)
Theorem rocket_rising_steps_count (rocket : handle) (x y_start y_target : Z)
    (app : App T) :
  let n := rising_steps y_start y_target in
  (∀ k : nat, (k < n)%nat → y_start - 10 * Z.of_nat k > y_target) ∧
  follow n (CbAnimateRocket rocket x y_start y_target) app =
    Some (CbAnimateRocket rocket x (y_start - 10 * Z.of_nat n) y_target,
          risen rocket n app) ∧
  y_start - 10 * Z.of_nat n ≤ y_target ∧
  (y_start > y_target → y_target - 10 < y_start - 10 * Z.of_nat n) ∧
  (y_start ≤ y_target → n = 0%nat) ∧
  fire (CbAnimateRocket rocket x (y_start - 10 * Z.of_nat n) y_target)
       (risen rocket n app) =
    explode rocket x y_target (risen rocket n app).
Proof.
  intros n. subst n. unfold rising_steps.
  set (q := (y_start - y_target + 9) / 10).
  assert (10 * q ≤ y_start - y_target + 9 < 10 * q + 10) as Hq.
  { unfold q. pose proof (Z.div_mod (y_start - y_target + 9) 10).
    pose proof (Z.mod_pos_bound (y_start - y_target + 9) 10). lia. }
  split_and!.
  - intros k Hk. lia.
  - apply follow_rising. lia.
  - lia.
  - intros Hgt. lia.
  - intros Hle. lia.
  - unfold fire. apply animate_rocket_arrived. lia.
Qed.

End Spawn.

(** ** Explosions side by side *)

Section Interleaving.
Context {T : Type} `{!Number T}.

Local Open Scope Z_scope.

(** What a step does to the visuals of its own particles is decided by
    these visuals alone. *)
Lemma canvas_after_all_agree (w h : Z) (ps : list (particle_t T))
    (c c' : gmap handle (item T)) (k : handle) :
  (∀ q, q ∈ ps → c !! q.1.1 = c' !! q.1.1) →
  k ∈ ps.*1.*1 →
  canvas_after_all w h c ps !! k = canvas_after_all w h c' ps !! k.
Proof.
  revert c c'. induction ps as [|p ps IH]; intros c c' Hag Hk.
  - by apply elem_of_nil in Hk.
  - unfold canvas_after_all in *. simpl.
    assert (c !! p.1.1 = c' !! p.1.1) as Hp by (apply Hag; left).
    assert (∀ q, q ∈ ps →
              canvas_after w h c p !! q.1.1 = canvas_after w h c' p !! q.1.1) as Hag'.
    { intros q Hq. apply canvas_after_agree; [done|]. apply Hag. by right. }
    destruct (decide (k ∈ ps.*1.*1)) as [Hin|Hout].
    + by apply IH.
    + fold (canvas_after_all w h (canvas_after w h c p) ps).
      fold (canvas_after_all w h (canvas_after w h c' p) ps).
      rewrite !canvas_after_all_lookup_notin by done.
      simpl in Hk. apply elem_of_cons in Hk as [->|Hk]; [|done].
      by apply canvas_after_agree.
Qed.

(** X8. An advance step of one explosion never raises and touches nothing
    but the visuals of its own particles: every other item of the canvas
    is exactly as before, and so are self.width, self.height, the window,
    Tk's id counter and the state of the random module. *)
Theorem animate_explosion_leaves_others_alone (particles : list (particle_t T))
    (app : App T) :
  let r := animate_explosion particles app in
  value r = Ok () ∧
  (∀ k, k ∉ particles.*1.*1 → canvas (final r) !! k = canvas app !! k) ∧
  final r = set_canvas (canvas (final r)) app.
Proof.
  intros r. subst r. rewrite animate_explosion_run. simpl.
  split; [done|]. split; [|done].
  intros k Hk. by apply canvas_after_all_lookup_notin.
Qed.

(** X9. Advance steps of two explosions that share no particle handle
    commute: run in either order from the same state they leave the same
    state, and each keeps and schedules the same particles as it would
    have alone.  The order in which the timer fires them does not
    matter. *)
Theorem animate_explosion_steps_commute (ps1 ps2 : list (particle_t T)) (app : App T) :
  (∀ k, k ∈ ps1.*1.*1 → k ∉ ps2.*1.*1) →
  let r1 := animate_explosion ps1 app in
  let r2 := animate_explosion ps2 app in
  let r12 := animate_explosion ps2 (final r1) in
  let r21 := animate_explosion ps1 (final r2) in
  final r12 = final r21 ∧
  scheduled r12 = scheduled r2 ∧
  scheduled r21 = scheduled r1.
Proof.
  intros Hdisj r1 r2 r12 r21. subst r1 r2 r12 r21.
  rewrite !animate_explosion_run. simpl.
  set (w := width app). set (h := height app). set (c := canvas app).
  assert (∀ q, q ∈ ps2 → canvas_after_all w h c ps1 !! q.1.1 = c !! q.1.1) as H12.
  { intros q Hq. apply canvas_after_all_lookup_notin. intros Hin.
    apply (Hdisj _ Hin). by apply elem_of_handles. }
  assert (∀ q, q ∈ ps1 → canvas_after_all w h c ps2 !! q.1.1 = c !! q.1.1) as H21.
  { intros q Hq. apply canvas_after_all_lookup_notin.
    apply Hdisj. by apply elem_of_handles. }
  rewrite (survivors_agree w h ps2 _ c H12).
  rewrite (survivors_agree w h ps1 _ c H21).
  split; [|done].
  rewrite !set_canvas_twice. f_equal.
  apply map_eq. intros k.
  destruct (decide (k ∈ ps1.*1.*1)) as [Hk1|Hk1].
  - rewrite (canvas_after_all_lookup_notin w h ps2) by (by apply Hdisj).
    symmetry. by apply canvas_after_all_agree.
  - rewrite (canvas_after_all_lookup_notin w h ps1 (canvas_after_all w h c ps2))
      by done.
    destruct (decide (k ∈ ps2.*1.*1)) as [Hk2|Hk2].
    + by apply canvas_after_all_agree.
    + by rewrite !canvas_after_all_lookup_notin by done.
Qed.

(** X10. In whatever arithmetic the coordinates are computed, binary64
    included: a particle (of a list with distinct handles) still listed
    after n advance steps started with the same (dx, dy), and each
    coordinate of its visual is the original one after n successive
    additions of dx * 0.1 (for x) or dy * 0.1 (for y); the colours are
    the original ones. *)
Theorem particle_moved_n_times (n : nat) (particles particles' : list (particle_t T))
    (app app' : App T) (particle : handle) (dx dy : T) (origin : item T) :
  NoDup (particles.*1.*1) →
  explosion_frames n particles app = Some (particles', app') →
  (particle, dx, dy) ∈ particles' →
  canvas app !! particle = Some origin →
  (particle, dx, dy) ∈ particles ∧
  canvas app' !! particle =
    Some (Oval (moved_times n dx (x1 origin)) (moved_times n dy (y1 origin))
               (moved_times n dx (x2 origin)) (moved_times n dy (y2 origin))
               (fill origin) (outline origin)).
Proof.
  intros Hnd Hrun Hin Hit.
  destruct (explosion_frames_track n particles particles' app app' particle dx dy
              origin Hnd Hrun Hin Hit) as [Hps Hfinal].
  split; [exact Hps|].
  rewrite Hfinal. f_equal. apply iter_translate_moved.
Qed.

End Interleaving.

(** ** Ids of visuals are never reused *)

Section Ids.
Context {T : Type} `{!Number T, !Libm T, !Random T}.

Local Open Scope Z_scope.

Lemma animate_explosion_ids (ps : list (particle_t T)) (app : App T) :
  ids_below_next app →
  ids_below_next (final (animate_explosion ps app)) ∧
  next_id (final (animate_explosion ps app)) = next_id app.
Proof.
  intros Hids. rewrite animate_explosion_run. simpl. split; [|done].
  intros k it Hk. simpl in Hk.
  apply canvas_after_all_origin in Hk as (it0 & Hk & _). by eapply Hids.
Qed.

Lemma spawned_ids (x y_target : Z) (color : string) (app : App T) :
  ids_below_next app → ids_below_next (spawned x y_target color app).
Proof.
  intros Hids k it Hk. simpl in *.
  destruct (decide (next_id app = k)) as [<-|Hne]; [lia|].
  rewrite lookup_insert_ne in Hk by done. apply Hids in Hk. lia.
Qed.

Lemma spawn_loop_ids (x y_target : Z) (l : list nat) (acc : list (particle_t T))
    (app : App T) :
  ids_below_next app →
  ids_below_next (final (for_each (spawn_particle x y_target) l acc app)) ∧
  (next_id app ≤ next_id (final (for_each (spawn_particle x y_target) l acc app)))%nat.
Proof.
  revert acc app. induction l as [|i l IH]; intros acc app Hids; [done|].
  simpl. unfold mbind, M_bind. rewrite spawn_particle_run.
  destruct (colors !! _) as [color|]; simpl; [|done].
  destruct (IH (acc ++ [(next_id app, drawn_dx (draws app), drawn_dy (draws app))])
               (spawned x y_target color app) (spawned_ids _ _ _ _ Hids))
    as [Hids' Hnext].
  destruct (for_each _ l _ _) as [v a2 s2]; simpl in *.
  split; [done|lia].
Qed.

Lemma explode_ids (rocket : handle) (x y_target : Z) (app : App T) :
  ids_below_next app →
  ids_below_next (final (explode rocket x y_target app)) ∧
  (next_id app ≤ next_id (final (explode rocket x y_target app)))%nat.
Proof.
  intros Hids. unfold explode, spawn_particles.
  generalize (seq 0 30). intros l.
  assert (ids_below_next (set_canvas (delete rocket (canvas app)) app)) as Hdel.
  { intros k it Hk. simpl in Hk. apply lookup_delete_Some in Hk as [_ Hk].
    by eapply Hids. }
  pose proof (spawn_loop_ids x y_target l [] _ Hdel) as [Hsp Hnext].
  unfold mbind, M_bind, canvas_delete, modify. simpl in *.
  destruct (for_each (spawn_particle x y_target) l [] _)
    as [[ps|e] app1 sch]; simpl in *; [|done].
  destruct (animate_explosion_ids ps app1 Hsp) as [Hae Hsame].
  destruct (animate_explosion ps app1) as [v a2 s2]; simpl in *.
  split; [done|lia].
Qed.

Lemma animate_rocket_ids (rocket : handle) (x y_start y_target : Z) (app : App T) :
  ids_below_next app →
  ids_below_next (final (animate_rocket rocket x y_start y_target app)) ∧
  (next_id app ≤ next_id (final (animate_rocket rocket x y_start y_target app)))%nat.
Proof.
  intros Hids. destruct (decide (y_start > y_target)) as [Hgt|Hle].
  - rewrite animate_rocket_rising by done. simpl. split; [|done].
    intros k it Hk. simpl in Hk.
    destruct (decide (rocket = k)) as [<-|Hne].
    + rewrite lookup_alter_eq in Hk.
      apply fmap_Some in Hk as (it0 & Hr & _). simpl. by eapply Hids.
    + rewrite lookup_alter_ne in Hk by done. simpl. by eapply Hids.
  - rewrite animate_rocket_arrived by lia. by apply explode_ids.
Qed.

Lemma create_rocket_ids (app : App T) :
  ids_below_next app →
  ids_below_next (final (create_rocket app)) ∧
  (next_id app ≤ next_id (final (create_rocket app)))%nat.
Proof.
  intros Hids. destruct (decide (200 ≤ width app)) as [Hw|Hw].
  - destruct (create_rocket_run app Hw) as [Hrun Hlt]. cbv zeta in Hrun, Hlt.
    rewrite Hrun.
    match goal with
    | |- context [animate_rocket ?r ?x ?y ?t ?a] =>
        destruct (animate_rocket_ids r x y t a) as [Hok Hnext]
    end.
    + intros k it Hk. simpl in *.
      destruct (decide (next_id app = k)) as [<-|Hne]; [lia|].
      rewrite lookup_insert_ne in Hk by done. apply Hids in Hk. lia.
    + split; [exact Hok|]. simpl in *. lia.
  - rewrite create_rocket_narrow by lia. done.
Qed.

(** X11. Whatever callback the main loop runs, and whether it returns or
    raises, Tk's id counter never decreases and every item left on the
    canvas has an id below it, provided that held before: a new visual is
    always created under an id that no item on the canvas has, so no
    rocket or particle is ever replaced by another one's visual. *)
Theorem fire_keeps_ids_below_next (cb : callback T) (app : App T) :
  ids_below_next app →
  ids_below_next (final (fire cb app)) ∧
  (next_id app ≤ next_id (final (fire cb app)))%nat ∧
  (∀ k, (next_id app ≤ k)%nat → canvas app !! k = None).
Proof.
  intros Hids.
  assert (∀ k, (next_id app ≤ k)%nat → canvas app !! k = None) as Hfree.
  { intros k Hk. destruct (canvas app !! k) as [it|] eqn:Hit; [|done].
    apply Hids in Hit. lia. }
  destruct cb as [rocket x y_start y_target|particles|]; simpl.
  - destruct (animate_rocket_ids rocket x y_start y_target app Hids). done.
  - destruct (animate_explosion_ids particles app Hids) as [? Heq].
    rewrite Heq. done.
  - destruct (create_rocket_ids app Hids) as [Hok Hnext].
    unfold start_fireworks, mbind, M_bind, after.
    destruct (create_rocket app) as [[[]|e] app1 sch]; simpl in *; done.
Qed.

End Ids.

(** ** What [explode] leaves behind *)

Section Aftermath.
Context {T : Type} `{!Number T, !Libm T, !Random T}.

Local Open Scope Z_scope.

(** X13. Under the contract of random.choice, explode returns normally;
    the 30 ids it hands out are the next 30 of Tk's counter; it schedules
    either nothing or one advance step, 50 ms later, of a sublist of the
    particles it created (the first advance step has already run inside
    explode); it leaves self.width and self.height alone; and of the
    items that were on the canvas before, it removes the rocket and
    leaves every other one exactly as it was. *)
Theorem explode_aftermath (rocket : handle) (x y_target : Z) (app : App T) :
  fair_choice →
  ids_below_next app →
  (rocket < next_id app)%nat →
  ∃ particles remaining,
    particles.*1.*1 = seq (next_id app) 30 ∧
    remaining `sublist_of` particles ∧
    value (explode rocket x y_target app) = Ok () ∧
    scheduled (explode rocket x y_target app) =
      (if truthy remaining then [(50, CbAnimateExplosion remaining)] else []) ∧
    next_id (final (explode rocket x y_target app)) = (next_id app + 30)%nat ∧
    width (final (explode rocket x y_target app)) = width app ∧
    height (final (explode rocket x y_target app)) = height app ∧
    canvas (final (explode rocket x y_target app)) !! rocket = None ∧
    (∀ k it, k ≠ rocket → canvas app !! k = Some it →
       canvas (final (explode rocket x y_target app)) !! k = Some it).
Proof.
  intros Hc Hids Hrocket.
  destruct (spawn_loop_run x y_target (seq 0 30) []
              (set_canvas (delete rocket (canvas app)) app) Hc)
    as (new & app' & Hrun & Hnew & Hnext & Hw & Hh & Hframe & _).
  destruct (explode_run rocket x y_target app Hc) as (ps & app1 & Hsp & Hex).
  unfold spawn_particles in Hsp. rewrite Hrun in Hsp. injection Hsp as <- <-.
  rewrite length_seq in Hnew, Hnext.
  change (next_id (set_canvas (delete rocket (canvas app)) app))
    with (next_id app) in Hnew, Hnext, Hframe.
  change (canvas (set_canvas (delete rocket (canvas app)) app))
    with (delete rocket (canvas app)) in Hframe.
  change (width (set_canvas (delete rocket (canvas app)) app))
    with (width app) in Hw.
  change (height (set_canvas (delete rocket (canvas app)) app))
    with (height app) in Hh.
  assert (∀ k, (k < next_id app)%nat → k ∉ new.*1.*1) as Hold.
  { intros k Hk. rewrite Hnew. intros Hin. apply elem_of_seq in Hin. lia. }
  exists new, (survivors (width app') (height app') (canvas app') new).
  rewrite Hex, animate_explosion_run. simpl.
  split_and!; try done.
  - apply survivors_sublist.
  - rewrite canvas_after_all_lookup_notin by (by apply Hold).
    rewrite Hframe by done. apply lookup_delete_eq.
  - intros k it Hne Hk. pose proof (Hids k it Hk) as Hlt.
    rewrite canvas_after_all_lookup_notin by (by apply Hold).
    rewrite Hframe by done. by rewrite lookup_delete_ne.
Qed.

End Aftermath.

(** ** The visual of a rising rocket, in binary64 *)

Section Rise.
Context {T : Type} `{!Number T}.

(** In any arithmetic: [n] rising steps translate the rocket's visual [n]
    times by (0, -10) and touch nothing else. *)
Lemma risen_canvas (rocket : handle) (n : nat) (app : App T) :
  canvas (risen rocket n app) !! rocket =
    Nat.iter n (translate (of_int 0) (of_int (-10))) <$> canvas app !! rocket ∧
  (∀ k, k ≠ rocket → canvas (risen rocket n app) !! k = canvas app !! k) ∧
  next_id (risen rocket n app) = next_id app ∧
  draws (risen rocket n app) = draws app.
Proof.
  revert app. induction n as [|n IH]; intros app.
  - cbn [risen Nat.iter nat_rect]. split; [|done].
    by destruct (canvas app !! rocket).
  - cbn [risen].
    destruct (IH (set_canvas
                    (alter (translate (of_int 0) (of_int (-10))) rocket (canvas app)) app))
      as (Hr & Hothers & Hn & Hd).
    cbn [canvas set_canvas next_id draws] in *.
    split; [|split; [|done]].
    + rewrite Hr, lookup_alter_eq.
      destruct (canvas app !! rocket) as [it|]; [|done].
      cbn [fmap option_fmap option_map]. by rewrite Nat.iter_succ_r.
    + intros k Hk. rewrite Hothers by done. by rewrite lookup_alter_ne.
Qed.

End Rise.

(** On a screen, the additions of a rising step are exact in binary64:
    for every int z with |z| <= 4200, z + (-10) is the binary64 number of
    z - 10 and z + 0 is z; checked one int at a time. *)
Lemma rising_step_exact_upto_4200 :
  forallb
    (λ i : nat,
       let z := (Z.of_nat i - 4200)%Z in
       PrimFloat.Leibniz.eqb (num_add (of_int z) (of_int (-10))) (of_int (z - 10)) &&
       PrimFloat.Leibniz.eqb (num_add (of_int z) (of_int 0)) (of_int z))
    (seq 0 (Z.to_nat 8401)) = true.
Proof. vm_compute. reflexivity. Qed.

Lemma rising_step_exact (z : Z) :
  (-4200 ≤ z ≤ 4200)%Z →
  num_add (of_int z) (of_int (-10)) = (of_int (z - 10) : float) ∧
  num_add (of_int z) (of_int 0) = (of_int z : float).
Proof.
  intros Hz.
  pose proof (proj1 (forallb_forall _ _) rising_step_exact_upto_4200
                (Z.to_nat (z + 4200))) as Hchk.
  cbv beta zeta in Hchk.
  replace (Z.of_nat (Z.to_nat (z + 4200)) - 4200)%Z with z in Hchk by lia.
  assert (In (Z.to_nat (z + 4200)) (seq 0 (Z.to_nat 8401))) as Hin by (apply in_seq; lia).
  apply Hchk, andb_true_iff in Hin as [H10 H0].
  split; by apply FloatAxioms.Leibniz.eqb_spec.
Qed.

Lemma iter_rise_exact (n : nat) (a b c d : Z) (fill_ outline_ : string) :
  (-4200 ≤ a ≤ 4200)%Z → (-4200 ≤ c ≤ 4200)%Z →
  (-4200 ≤ b - 10 * Z.of_nat n)%Z → (b ≤ 4200)%Z →
  (-4200 ≤ d - 10 * Z.of_nat n)%Z → (d ≤ 4200)%Z →
  Nat.iter n (translate (of_int 0) (of_int (-10)))
    (Oval (of_int a) (of_int b) (of_int c) (of_int d) fill_ outline_ : item float) =
  Oval (of_int a) (of_int (b - 10 * Z.of_nat n)) (of_int c)
       (of_int (d - 10 * Z.of_nat n)) fill_ outline_.
Proof.
  intros Ha Hc. induction n as [|n IH]; intros Hb Hb' Hd Hd'.
  - cbn [Nat.iter nat_rect]. do 2 f_equal; f_equal; lia.
  - rewrite Nat.iter_succ, IH by lia. unfold translate. cbn [x1 y1 x2 y2 fill outline].
    rewrite (proj2 (rising_step_exact a Ha)), (proj2 (rising_step_exact c Hc)).
    rewrite (proj1 (rising_step_exact (b - 10 * Z.of_nat n) ltac:(lia))).
    rewrite (proj1 (rising_step_exact (d - 10 * Z.of_nat n) ltac:(lia))).
    f_equal; f_equal; lia.
Qed.

Section RiseBinary64.
Context `{!Libm float, !Random float}.

Local Open Scope Z_scope.

(** X14. In binary64 the visual of a rising rocket follows its tracked
    height exactly, for all coordinates up to 4000 (the largest window of
    the table is 3840 x 2160): if the visual is the oval
    (x - 2, y_start - 10, x + 2, y_start + 10), as create_rocket builds it,
    then after n rising steps the callback pending carries the tracked
    height y_start - 10 n and the visual is the oval
    (x - 2, y - 10, x + 2, y + 10) for that very y, with the same colours;
    no other item of the canvas has changed, and no id or random number
    was used. *)
Theorem rocket_visual_follows_tracked_height (n : nat) (rocket : handle)
    (x y_start y_target : Z) (app : App float) (fill_ outline_ : string) :
  (n = 0%nat ∨ y_start - 10 * (Z.of_nat n - 1) > y_target) →
  0 ≤ x ≤ 4000 →
  -4000 ≤ y_start - 10 * Z.of_nat n →
  y_start ≤ 4000 →
  canvas app !! rocket =
    Some (Oval (of_int (x - 2)) (of_int (y_start - 10))
               (of_int (x + 2)) (of_int (y_start + 10)) fill_ outline_) →
  ∃ app',
    follow n (CbAnimateRocket rocket x y_start y_target) app =
      Some (CbAnimateRocket rocket x (y_start - 10 * Z.of_nat n) y_target, app') ∧
    canvas app' !! rocket =
      Some (Oval (of_int (x - 2)) (of_int (y_start - 10 * Z.of_nat n - 10))
                 (of_int (x + 2)) (of_int (y_start - 10 * Z.of_nat n + 10))
                 fill_ outline_) ∧
    (∀ k, k ≠ rocket → canvas app' !! k = canvas app !! k) ∧
    next_id app' = next_id app ∧
    draws app' = draws app.
Proof.
  intros Hn Hx Hlow Hhigh Hit. exists (risen rocket n app).
  destruct (risen_canvas rocket n app) as (Hr & Hothers & Hnext & Hd).
  split; [by apply follow_rising|]. split; [|done].
  rewrite Hr, Hit. cbn [fmap option_fmap option_map].
  rewrite iter_rise_exact by lia. do 2 f_equal; f_equal; lia.
Qed.

End RiseBinary64.

(** ** How long a particle stays listed *)

Section Listed.
Context {T : Type} `{!Number T}.

Local Open Scope Z_scope.

(** X15. In whatever arithmetic the coordinates are computed, binary64
    included, for particles with distinct handles: a particle whose
    visual is on the canvas is still listed after n advance steps exactly
    when each of its first n positions, the top-left corner of the visual
    after j = 1..n successive additions of (dx * 0.1, dy * 0.1), passes
    the test 0 <= x <= width and 0 <= y <= height (bounds included).  So
    it is removed by the first step that takes it outside, and never
    earlier. *)
Theorem particle_listed_iff_positions_inside (n : nat) (particles : list (particle_t T))
    (app : App T) (particle : handle) (dx dy : T) (origin : item T) :
  NoDup (particles.*1.*1) →
  (particle, dx, dy) ∈ particles →
  canvas app !! particle = Some origin →
  (∃ particles' app',
     explosion_frames n particles app = Some (particles', app') ∧
     (particle, dx, dy) ∈ particles')
  ↔
  (∀ j : nat, (1 ≤ j ≤ n)%nat →
     between 0 (moved_times j dx (x1 origin)) (width app) = true ∧
     between 0 (moved_times j dy (y1 origin)) (height app) = true).
Proof.
  revert particles app origin.
  induction n as [|n IH]; intros ps app origin Hnd Hin Hit.
  - split; [intros _ j Hj; lia|]. intros _. by exists ps, app.
  - rewrite explosion_frames_step. cbv zeta.
    set (rem := survivors (width app) (height app) (canvas app) ps).
    set (app1 := set_canvas
                   (canvas_after_all (width app) (height app) (canvas app) ps) app).
    assert (stays (width app) (height app) (canvas app) (particle, dx, dy) = true
            ↔ between 0 (moved_times 1 dx (x1 origin)) (width app) = true ∧
              between 0 (moved_times 1 dy (y1 origin)) (height app) = true) as Hstay.
    { rewrite (stays_inside _ _ _ (particle, dx, dy) origin Hit).
      cbn [fst snd]. apply andb_true_iff. }
    assert ((particle, dx, dy) ∈ rem
            ↔ stays (width app) (height app) (canvas app) (particle, dx, dy) = true)
      as Hrem.
    { unfold rem. pose proof (elem_of_survivors (width app) (height app) ps
                                (canvas app) (particle, dx, dy) Hnd). tauto. }
    assert (stays (width app) (height app) (canvas app) (particle, dx, dy) = true →
            canvas app1 !! particle =
              Some (translate (num_mul dx tenth) (num_mul dy tenth) origin)) as Hmoved.
    { intros Hs. unfold app1. cbn [canvas set_canvas].
      rewrite (canvas_after_all_lookup_in _ _ _ _ (particle, dx, dy) Hnd Hin), Hs.
      cbn [fst snd]. by rewrite Hit. }
    assert (NoDup (rem.*1.*1)) as Hnd' by (by apply survivors_NoDup).
    split.
    + intros (ps' & app' & Hrun & Hin').
      destruct (truthy rem) eqn:Hne; [|done].
      assert ((particle, dx, dy) ∈ rem) as Hp.
      { eapply elem_of_sublist; [exact Hin'|]. by eapply explosion_frames_sublist. }
      pose proof (proj1 Hrem Hp) as Hs.
      pose proof (proj1 (IH rem app1 _ Hnd' Hp (Hmoved Hs))
                    (ex_intro _ ps' (ex_intro _ app' (conj Hrun Hin')))) as Hlater.
      intros j Hj. destruct j as [|[|j]]; [lia| |].
      * by apply Hstay.
      * rewrite !(moved_times_S (S j)). apply (Hlater (S j)). lia.
    + intros Hall.
      assert (stays (width app) (height app) (canvas app) (particle, dx, dy) = true)
        as Hs by (apply Hstay, Hall; lia).
      pose proof (proj2 Hrem Hs) as Hp.
      assert (truthy rem = true) as Hne.
      { destruct rem; [by apply elem_of_nil in Hp|done]. }
      rewrite Hne.
      apply (IH rem app1 _ Hnd' Hp (Hmoved Hs)).
      intros j Hj. cbn [translate x1 y1]. rewrite <- !moved_times_S.
      apply Hall. lia.
Qed.

End Listed.

(** ** The further properties at the scenarios *)

Lemma HD_in_table : ("HD"%string, (1280, 720)%Z) ∈ resolution_table.
Proof. unfold resolution_table. apply list_elem_of_further, list_elem_of_here. Qed.

Lemma change_resolution_resizes_window_only_witness :
  ("HD"%string, (1280, 720)%Z) ∈ resolution_table ∧
  monitors demo_app = [(1920, 1080)%Z] ∧
  geometry (final (change_resolution "HD" demo_app)) =
    (Z.min 1280 (1920 - 50), Z.min 720 (1080 - 50)) ∧
  canvas (final (change_resolution "HD" demo_app)) = canvas demo_app ∧
  canvas_size (final (change_resolution "HD" demo_app)) = canvas_size demo_app.
Proof.
  split; [exact HD_in_table|]. split; [reflexivity|].
  pose proof (change_resolution_resizes_window_only "HD" 1280 720 1920 1080 []
                demo_app HD_in_table eq_refl)
    as (_ & _ & _ & _ & Hg & Hc & Hs & _).
  split; [exact Hg|]. split; [exact Hc|exact Hs].
Defined.

Lemma change_resolution_last_wins_witness :
  "4K"%string ∈ resolution_table.*1 ∧
  "HD"%string ∈ resolution_table.*1 ∧
  monitors demo_app ≠ [] ∧
  change_resolution "HD" (final (change_resolution "4K" demo_app)) =
    change_resolution "HD" demo_app.
Proof.
  assert ("4K"%string ∈ resolution_table.*1) as H4
    by (simpl; repeat first [apply list_elem_of_here | apply list_elem_of_further]).
  assert ("HD"%string ∈ resolution_table.*1) as Hh
    by (simpl; repeat first [apply list_elem_of_here | apply list_elem_of_further]).
  assert (monitors demo_app ≠ []) as Hm by done.
  split; [exact H4|]. split; [exact Hh|]. split; [exact Hm|].
  exact (proj2 (change_resolution_last_wins "4K" "HD" demo_app H4 Hh Hm)).
Defined.

Lemma no_monitor_raises_IndexError_witness :
  ("HD"%string, (1280, 720)%Z) ∈ resolution_table ∧
  monitors headless_app = [] ∧
  change_resolution "HD" headless_app =
    Result (Raise IndexError) (set_size 1280 720 headless_app) [].
Proof.
  split; [exact HD_in_table|]. split; [reflexivity|].
  exact (proj2 (no_monitor_raises_IndexError "HD" "HD" 1280 720 0 headless_app
                  HD_in_table eq_refl)).
Defined.

Lemma start_fireworks_narrow_window_stops_witness :
  (width narrow_app < 200)%Z ∧
  @start_fireworks float _ sample_libm sample_random narrow_app =
    Result (Raise ValueError) narrow_app [].
Proof.
  assert (width narrow_app < 200)%Z as Hw by (simpl; lia).
  split; [exact Hw|].
  exact (proj1 (proj2 (@start_fireworks_narrow_window_stops float _ sample_libm
                         sample_random narrow_app Hw))).
Defined.

Lemma start_fireworks_spawns_and_reschedules_witness :
  (200 ≤ width demo_app)%Z ∧ (300 < height demo_app)%Z ∧
  @fair_randint float sample_random ∧
  ∃ x y_target,
    scheduled (@start_fireworks float _ sample_libm sample_random demo_app) =
      [(30%Z, CbAnimateRocket (next_id demo_app) x (height demo_app - 10) y_target);
       (1000%Z, CbStartFireworks)].
Proof.
  assert (200 ≤ width demo_app)%Z as Hw by (simpl; lia).
  assert (300 < height demo_app)%Z as Hh by (simpl; lia).
  split; [exact Hw|]. split; [exact Hh|]. split; [exact sample_random_randint|].
  destruct (@start_fireworks_spawns_and_reschedules float _ sample_libm sample_random
              demo_app Hw Hh sample_random_randint)
    as (x & y_target & _ & _ & _ & Hs & _).
  exists x, y_target. exact Hs.
Defined.

Lemma animate_explosion_steps_commute_witness :
  (∀ k, k ∈ [demo_particle].*1.*1 → k ∉ [(2%nat, 30%float, 40%float)].*1.*1) ∧
  final (animate_explosion [(2%nat, 30%float, 40%float)]
           (final (animate_explosion [demo_particle] demo_app))) =
  final (animate_explosion [demo_particle]
           (final (animate_explosion [(2%nat, 30%float, 40%float)] demo_app))).
Proof.
  assert (∀ k, k ∈ [demo_particle].*1.*1 →
               k ∉ [(2%nat, 30%float, 40%float)].*1.*1) as Hd.
  { intros k Hk Hk2. simpl in Hk, Hk2.
    apply list_elem_of_singleton in Hk, Hk2. congruence. }
  split; [exact Hd|].
  exact (proj1 (animate_explosion_steps_commute [demo_particle]
                  [(2%nat, 30%float, 40%float)] demo_app Hd)).
Defined.

Lemma particle_moved_n_times_witness :
  NoDup ([demo_particle].*1.*1) ∧
  explosion_frames 80 [demo_particle] demo_app =
    Some ([demo_particle], demo_app_at 800%float 805%float) ∧
  demo_particle ∈ [demo_particle] ∧
  canvas demo_app !! 1%nat =
    Some (Oval 400%float 150%float 405%float 155%float "red" "red") ∧
  canvas (demo_app_at 800%float 805%float) !! 1%nat =
    Some (Oval (moved_times 80 50%float 400%float) (moved_times 80 0%float 150%float)
               (moved_times 80 50%float 405%float) (moved_times 80 0%float 155%float)
               "red" "red").
Proof.
  split; [exact demo_handles_distinct|]. split; [exact demo_80_frames|].
  split; [apply list_elem_of_here|]. split; [apply lookup_singleton_eq|].
  exact (proj2 (particle_moved_n_times 80 [demo_particle] [demo_particle] demo_app
                  (demo_app_at 800%float 805%float) 1%nat 50%float 0%float
                  (Oval 400%float 150%float 405%float 155%float "red" "red")
                  demo_handles_distinct demo_80_frames (list_elem_of_here _ _)
                  (lookup_singleton_eq _ _))).
Defined.

Lemma fire_keeps_ids_below_next_witness :
  ids_below_next demo_app ∧
  ids_below_next
    (final (@fire float _ sample_libm sample_random CbStartFireworks demo_app)).
Proof.
  split; [exact demo_ids_below_next|].
  exact (proj1 (@fire_keeps_ids_below_next float _ sample_libm sample_random
                  CbStartFireworks demo_app demo_ids_below_next)).
Defined.

Lemma explode_aftermath_witness :
  @fair_choice float sample_random ∧
  ids_below_next demo_app ∧
  (1 < next_id demo_app)%nat ∧
  canvas (final (@explode float _ sample_libm sample_random 1%nat 400 150 demo_app))
    !! 1%nat = None ∧
  next_id (final (@explode float _ sample_libm sample_random 1%nat 400 150 demo_app)) =
    (next_id demo_app + 30)%nat.
Proof.
  assert (1 < next_id demo_app)%nat as Hr by (simpl; lia).
  split; [exact sample_random_choice|]. split; [exact demo_ids_below_next|].
  split; [exact Hr|].
  destruct (@explode_aftermath float _ sample_libm sample_random 1%nat 400 150 demo_app
              sample_random_choice demo_ids_below_next Hr)
    as (ps & rem & _ & _ & _ & _ & Hn & _ & _ & Hgone & _).
  split; [exact Hgone|exact Hn].
Defined.

Lemma rocket_visual_follows_tracked_height_witness :
  (3%nat = 0%nat ∨ (600 - 10 * (Z.of_nat 3 - 1) > 150)%Z) ∧
  (0 ≤ 400 ≤ 4000)%Z ∧ (-4000 ≤ 600 - 10 * Z.of_nat 3)%Z ∧ (600 ≤ 4000)%Z ∧
  canvas rocket_app !! 1%nat =
    Some (Oval (of_int (400 - 2)) (of_int (600 - 10)) (of_int (400 + 2))
               (of_int (600 + 10)) "white" "white") ∧
  ∃ app',
    @follow float _ sample_libm sample_random 3 (CbAnimateRocket 1%nat 400 600 150)
      rocket_app =
      Some (CbAnimateRocket 1%nat 400 (600 - 10 * Z.of_nat 3) 150, app') ∧
    canvas app' !! 1%nat =
      Some (Oval 398%float 560%float 402%float 580%float "white" "white").
Proof.
  assert (3%nat = 0%nat ∨ (600 - 10 * (Z.of_nat 3 - 1) > 150)%Z) as Hn by (right; lia).
  assert (0 ≤ 400 ≤ 4000)%Z as Hx by lia.
  assert (-4000 ≤ 600 - 10 * Z.of_nat 3)%Z as Hlow by lia.
  assert (600 ≤ 4000)%Z as Hhigh by lia.
  split; [exact Hn|]. split; [exact Hx|]. split; [exact Hlow|]. split; [exact Hhigh|].
  split; [apply lookup_singleton_eq|].
  destruct (@rocket_visual_follows_tracked_height sample_libm sample_random 3 1%nat
              400 600 150 rocket_app "white" "white" Hn Hx Hlow Hhigh
              (lookup_singleton_eq _ _))
    as (app' & Hf & Hc & _).
  exists app'. split; [exact Hf|exact Hc].
Defined.

Lemma demo_first_position_inside :
  ∀ j : nat, (1 ≤ j ≤ 1)%nat →
    between 0 (moved_times j 50%float (x1 (Oval 400%float 150%float 405%float 155%float
                                                "red" "red")))
            (width demo_app) = true ∧
    between 0 (moved_times j 0%float (y1 (Oval 400%float 150%float 405%float 155%float
                                               "red" "red")))
            (height demo_app) = true.
Proof.
  intros j Hj. assert (j = 1%nat) as -> by lia. split; vm_compute; reflexivity.
Qed.

Lemma particle_listed_iff_positions_inside_witness :
  NoDup ([demo_particle].*1.*1) ∧
  demo_particle ∈ [demo_particle] ∧
  canvas demo_app !! 1%nat =
    Some (Oval 400%float 150%float 405%float 155%float "red" "red") ∧
  ∃ particles' app',
    explosion_frames 1 [demo_particle] demo_app = Some (particles', app') ∧
    demo_particle ∈ particles'.
Proof.
  split; [exact demo_handles_distinct|]. split; [apply list_elem_of_here|].
  split; [apply lookup_singleton_eq|].
  exact (proj2 (particle_listed_iff_positions_inside 1 [demo_particle] demo_app
                  1%nat 50%float 0%float
                  (Oval 400%float 150%float 405%float 155%float "red" "red")
                  demo_handles_distinct (list_elem_of_here _ _)
                  (lookup_singleton_eq _ _))
               demo_first_position_inside).
Defined.
